(** * doublebuf: a read-optimised double buffer (src/doublebuf.go)

    The Go type [DoubleBuffer[T]] owns two values [a] and [b], two role
    pointers [back] and [front] into them, an atomic cell [next] holding the
    submitted pointer, and a channel [prev] of capacity 1 that carries the
    vacated pointer back to the producer.

    The development has two layers.
    - Every method as one function on the state of the buffer (a call that
      runs alone from its first line to its return), with the ways a Go call
      can fail to return a value written out: it can block on a channel or
      panic on a nil dereference.
    - [Next] cut at its shared-memory accesses (lines 72, 74, 75, 77), and a
      pool of goroutines that interleave those steps with the calls of the
      single producer. *)

From Stdlib Require Import ZArith Lia.
From stdpp Require Import base list relations.

Open Scope Z_scope.

(** ** Data model *)

(** The two storage locations [&db.a] and [&db.b]. *)
Inductive Slot := SlotA | SlotB.

Global Instance Slot_eq_dec : EqDecision Slot.
Proof. solve_decision. Defined.

(** A Go [*T] of this package: [nil] or the address of one of the two
    fields. *)
Definition Ptr := option Slot.

(** The two errors a [context.Context] reports once its [Done] channel is
    closed. *)
Inductive CtxErr := Canceled | DeadlineExceeded.

(** What [Back] uses of a context that is not the nil interface: [None]
    while [ctx.Done()] is open (then [ctx.Err()] is nil), [Some e] once it is
    closed with [ctx.Err() = e]. A nil [ctx], on which the call [ctx.Done()]
    of line 38 panics, has no counterpart here. *)
Definition Context := option CtxErr.

Definition Background : Context := None.

(** Go's [select] picks one of the ready cases at random; the pick is an
    argument. It matters only when both cases of [Back]'s select are ready. *)
Inductive Select := PickDone | PickRecv.

(** A call returns, blocks on a channel operation, or panics. *)
Inductive outcome (A : Type) :=
  | Returns (x : A)
  | Blocks
  | Panics.
Arguments Returns {A} x.
Arguments Blocks {A}.
Arguments Panics {A}.

(** [p != nil] *)
Definition non_nil (p : Ptr) : bool :=
  match p with Some _ => true | None => false end.

(** [make(chan *T, 1)] *)
Definition prev_cap : nat := 1.

Section DoubleBuffer.

Context {T : Type}.

Record DoubleBuffer := mkDB {
  a : T;
  b : T;
  back : Ptr;
  front : Ptr;
  next : Ptr;          (* atomic.Value holding a *T *)
  prev : list Ptr      (* chan *T, oldest element first *)
}.

Definition set_back (p : Ptr) (db : DoubleBuffer) : DoubleBuffer :=
  mkDB (a db) (b db) p (front db) (next db) (prev db).
Definition set_front (p : Ptr) (db : DoubleBuffer) : DoubleBuffer :=
  mkDB (a db) (b db) (back db) p (next db) (prev db).
Definition set_next (p : Ptr) (db : DoubleBuffer) : DoubleBuffer :=
  mkDB (a db) (b db) (back db) (front db) p (prev db).
Definition set_prev (q : list Ptr) (db : DoubleBuffer) : DoubleBuffer :=
  mkDB (a db) (b db) (back db) (front db) (next db) q.

(** [*p] for a non-nil [p]. *)
Definition load (s : Slot) (db : DoubleBuffer) : T :=
  match s with SlotA => a db | SlotB => b db end.

(** [*p = v] for a non-nil [p]. *)
Definition store (s : Slot) (v : T) (db : DoubleBuffer) : DoubleBuffer :=
  match s with
  | SlotA => mkDB v (b db) (back db) (front db) (next db) (prev db)
  | SlotB => mkDB (a db) v (back db) (front db) (next db) (prev db)
  end.

(** [*p]: a nil pointer panics. *)
Definition deref (p : Ptr) (db : DoubleBuffer) : outcome T :=
  match p with
  | Some s => Returns (load s db)
  | None => Panics
  end.

(** ** The methods, each run alone *)

(** [New] (lines 18-27). *)
Definition New (a0 b0 : T) : DoubleBuffer :=
  {| a := a0; b := b0;
     back := Some SlotA;
     front := Some SlotB;
     next := None;
     prev := [] |}.

(** [case db.back = <-db.prev] (line 40) on a channel whose head is [p]. *)
Definition recv_prev (p : Ptr) (q : list Ptr) (db : DoubleBuffer)
  : outcome (Ptr * option CtxErr) * DoubleBuffer :=
  let db' := set_back p (set_prev q db) in
  (Returns (back db', None), db').

(** [Back] (lines 34-44). The result is the Go pair of a pointer and an error. *)
Definition Back (ctx : Context) (sel : Select) (db : DoubleBuffer)
  : outcome (Ptr * option CtxErr) * DoubleBuffer :=
  match back db with
  | None =>
      match ctx, prev db with
      | None, [] => (Blocks, db)
      | Some e, [] => (Returns (None, Some e), db)
      | None, p :: q => recv_prev p q db
      | Some e, p :: q =>
          match sel with
          | PickDone => (Returns (None, Some e), db)
          | PickRecv => recv_prev p q db
          end
      end
  | Some _ => (Returns (back db, None), db)
  end.

(** [Ready] (lines 51-56). *)
Definition Ready (db : DoubleBuffer) : DoubleBuffer :=
  match back db with
  | Some _ => set_back None (set_next (back db) db)
  | None => db
  end.

(** [Front] (line 59). *)
Definition Front (db : DoubleBuffer) : outcome T := deref (front db) db.

(** [return *db.front, next != nil] (line 77). *)
Definition Next_return (nx : Ptr) (db : DoubleBuffer)
  : outcome (T * bool) * DoubleBuffer :=
  match deref (front db) db with
  | Returns t => (Returns (t, non_nil nx), db)
  | Blocks => (Blocks, db)
  | Panics => (Panics, db)
  end.

(** [Next] (lines 67-78). The send on line 74 blocks when the channel
    already holds [prev_cap] elements. *)
Definition Next (db : DoubleBuffer) : outcome (T * bool) * DoubleBuffer :=
  let nx := next db in
  let db1 := set_next None db in
  if non_nil nx then
    if decide (length (prev db1) < prev_cap)%nat then
      let db2 := set_prev (prev db1 ++ [front db1]) db1 in
      let db3 := set_front nx db2 in
      Next_return nx db3
    else (Blocks, db1)
  else Next_return nx db1.

(** ** Calls and runs of calls *)

(** [*p = v], the write the producer does through the pointer [Back] gave
    it (the feeder of the benchmark: [*j = i]). *)
Definition Store (p : Ptr) (v : T) (db : DoubleBuffer)
  : outcome unit * DoubleBuffer :=
  match p with
  | Some s => (Returns tt, store s v db)
  | None => (Panics, db)
  end.

Inductive Call :=
  | CBack (ctx : Context) (sel : Select)
  | CReady
  | CFront
  | CNext
  | CStore (p : Ptr) (v : T).

Inductive Ret :=
  | RBack (r : outcome (Ptr * option CtxErr))
  | RReady
  | RFront (r : outcome T)
  | RNext (r : outcome (T * bool))
  | RStore (r : outcome unit).

Definition exec (c : Call) (db : DoubleBuffer) : Ret * DoubleBuffer :=
  match c with
  | CBack ctx sel => let '(r, db') := Back ctx sel db in (RBack r, db')
  | CReady => (RReady, Ready db)
  | CFront => (RFront (Front db), db)
  | CNext => let '(r, db') := Next db in (RNext r, db')
  | CStore p v => let '(r, db') := Store p v db in (RStore r, db')
  end.

Fixpoint run (cs : list Call) (db : DoubleBuffer) : list Ret * DoubleBuffer :=
  match cs with
  | [] => ([], db)
  | c :: cs' =>
      let '(r, db1) := exec c db in
      let '(rs, db2) := run cs' db1 in
      (r :: rs, db2)
  end.

(** The states a buffer goes through when calls follow one another, each
    one complete before the next starts. *)
Inductive reachable : DoubleBuffer → Prop :=
  | reachable_New a0 b0 : reachable (New a0 b0)
  | reachable_exec c db : reachable db → reachable (exec c db).2.

(** One round of the producer, as the feeder of the benchmark does it:
    [j, err := db.Back(ctx); if err != nil { return }; *j = v; db.Ready()].
    [None] when [Back] hands out no slot. *)
Definition publish (ctx : Context) (sel : Select) (v : T) (db : DoubleBuffer)
  : option DoubleBuffer :=
  match Back ctx sel db with
  | (Returns (Some s, None), db1) => Some (Ready (store s v db1))
  | _ => None
  end.

(** ** [Next] step by step, and goroutines *)

(** Where a goroutine is inside [Next]; [nx] is the local [next]. *)
Inductive NextPC :=
  | AtSwap                               (* before line 72 *)
  | AtSend (nx : Ptr)                    (* before line 74 *)
  | AtAssign (nx : Ptr)                  (* before line 75 *)
  | AtReturn (nx : Ptr)                  (* before line 77, one read *)
  | Returned (t : T) (changed : bool)
  | Panicked.

Definition next_step (db : DoubleBuffer) (pc : NextPC)
  : option (DoubleBuffer * NextPC) :=
  match pc with
  | AtSwap =>
      let nx := next db in
      Some (set_next None db, if non_nil nx then AtSend nx else AtReturn nx)
  | AtSend nx =>
      if decide (length (prev db) < prev_cap)%nat
      then Some (set_prev (prev db ++ [front db]) db, AtAssign nx)
      else None
  | AtAssign nx => Some (set_front nx db, AtReturn nx)
  | AtReturn nx =>
      match deref (front db) db with
      | Returns t => Some (db, Returned t (non_nil nx))
      | _ => Some (db, Panicked)
      end
  | Returned _ _ | Panicked => None
  end.

(** A goroutine that calls [Next] and runs alone for at most [fuel] steps. *)
Fixpoint next_steps (fuel : nat) (db : DoubleBuffer) (pc : NextPC)
  : DoubleBuffer * NextPC :=
  match fuel with
  | O => (db, pc)
  | S fuel' =>
      match next_step db pc with
      | Some (db', pc') => next_steps fuel' db' pc'
      | None => (db, pc)
      end
  end.

Definition finished (pc : NextPC) : Prop :=
  match pc with Returned _ _ | Panicked => True | _ => False end.

(** The buffer and the goroutines that are inside a call of [Next]. *)
Definition Pool : Type := DoubleBuffer * list NextPC.

(** Goroutine [i] takes its next step and is then at [pc']. *)
Inductive nstep : Pool → nat → NextPC → Pool → Prop :=
  | nstep_thread db pcs i pc db' pc' :
      pcs !! i = Some pc →
      next_step db pc = Some (db', pc') →
      nstep (db, pcs) i pc' (db', <[i:=pc']> pcs).

Definition nstep_any (σ σ' : Pool) : Prop := ∃ i pc', nstep σ i pc' σ'.

Inductive Event :=
  | EvCall (c : Call) (r : Ret)          (* a call of the producer, or Front *)
  | EvGo                                 (* a goroutine calls Next *)
  | EvNext (i : nat) (pc' : NextPC).     (* a step inside a call of Next *)

(** A call of [Back] that blocks is a call that has not taken place. *)
Definition blocked (r : Ret) : Prop := r = RBack Blocks.

(** [Back], [Ready], [Front] and the producer's writes touch shared state
    once and are single steps; calls of [Next] go step by step. *)
Inductive pstep : Pool → Event → Pool → Prop :=
  | pstep_call c db pcs r db' :
      c ≠ CNext →
      exec c db = (r, db') →
      ¬ blocked r →
      pstep (db, pcs) (EvCall c r) (db', pcs)
  | pstep_go db pcs :
      pstep (db, pcs) EvGo (db, pcs ++ [AtSwap])
  | pstep_next σ i pc' σ' :
      nstep σ i pc' σ' →
      pstep σ (EvNext i pc') σ'.

Inductive trace : Pool → list Event → Pool → Prop :=
  | trace_nil σ : trace σ [] σ
  | trace_cons σ ev σ' tr σ'' :
      pstep σ ev σ' → trace σ' tr σ'' → trace σ (ev :: tr) σ''.

(** The step of line 72 that finds a submission: the call will report
    [changed = true]. *)
Definition takes_pending (ev : Event) : Prop :=
  ∃ i s, ev = EvNext i (AtSend (Some s)).

(** A call of [Back] that returns with a nil error. *)
Definition back_succeeds (ev : Event) : Prop :=
  ∃ ctx sel p, ev = EvCall (CBack ctx sel) (RBack (Returns (p, None))).

(** ** Invariants *)

(** The three phases of the rotation when calls follow one another: the
    slot [x] that is not front is held by the producer, or waits in the
    cell, or waits in the channel. *)
Definition rotating (db : DoubleBuffer) : Prop :=
  ∃ x y, x ≠ y ∧ front db = Some y ∧
    ((back db = Some x ∧ next db = None ∧ prev db = []) ∨
     (back db = None ∧ next db = Some x ∧ prev db = []) ∨
     (back db = None ∧ next db = None ∧ prev db = [Some x])).

(** The places that can hold the slot that is not front: [back], the cell,
    the channel, and the local [next] of a goroutine that is about to send. *)
Definition holds (p : Ptr) : nat :=
  match p with Some _ => 1%nat | None => 0%nat end.
Arguments holds !p /.

Definition sending (pc : NextPC) : nat :=
  match pc with AtSend _ => 1%nat | _ => 0%nat end.

Definition tokens (σ : Pool) : nat :=
  (holds (back σ.1) + holds (next σ.1) + length (prev σ.1)
   + sum_list_with sending σ.2)%nat.

Definition pc_ok (pc : NextPC) : Prop :=
  match pc with
  | AtSend nx | AtAssign nx => nx ≠ None
  | _ => True
  end.

Definition pool_inv (σ : Pool) : Prop :=
  tokens σ = 1%nat ∧ front σ.1 ≠ None ∧
  Forall (λ p, p ≠ None) (prev σ.1) ∧ Forall pc_ok σ.2.

(** The producer has submitted and nothing has come back yet. *)
Definition awaiting (σ : Pool) : Prop :=
  back σ.1 = None ∧ prev σ.1 = [] ∧ Forall (λ pc, sending pc = 0%nat) σ.2.

(** [n] goroutines call [Next] while the submission [x] waits in the cell
    and [y] is front. The goroutine whose swap gets [x] goes through lines
    74, 75 and 77; [vx] is the value of the slot [x]. *)
Definition winner_pc (x y : Slot) (vx : T) (db : DoubleBuffer) (pc : NextPC)
  : Prop :=
  match pc with
  | AtSend nx => nx = Some x ∧ front db = Some y ∧ prev db = []
  | AtAssign nx => nx = Some x ∧ front db = Some y ∧ prev db = [Some y]
  | AtReturn nx => nx = Some x ∧ front db = Some x ∧ prev db = [Some y]
  | Returned v changed =>
      v = vx ∧ changed = true ∧ front db = Some x ∧ prev db = [Some y]
  | _ => False
  end.

(** The other goroutines get nil from the swap and go to line 77. *)
Definition loser_pc (vx vy : T) (pc : NextPC) : Prop :=
  match pc with
  | AtSwap => True
  | AtReturn nx => nx = None
  | Returned v changed => changed = false ∧ (v = vx ∨ v = vy)
  | _ => False
  end.

Definition race_inv (db0 : DoubleBuffer) (x y : Slot) (σ : Pool) : Prop :=
  a σ.1 = a db0 ∧ b σ.1 = b db0 ∧
  ((next σ.1 = Some x ∧ front σ.1 = Some y ∧ prev σ.1 = [] ∧
    Forall (λ pc, pc = AtSwap) σ.2) ∨
   (next σ.1 = None ∧
    ∃ w pw, σ.2 !! w = Some pw ∧ winner_pc x y (load x db0) σ.1 pw ∧
      ∀ j pc, j ≠ w → σ.2 !! j = Some pc →
        loser_pc (load x db0) (load y db0) pc)).

(** Steps a goroutine has left inside [Next], at most. *)
Definition remaining (pc : NextPC) : nat :=
  match pc with
  | AtSwap => 4
  | AtSend _ => 3
  | AtAssign _ => 2
  | AtReturn _ => 1
  | _ => 0
  end%nat.

(** ** Cycles, counts and single-consumer runs *)

(** The free slot [x] is with the producer, in the cell, or in the channel. *)
Definition held (x : Slot) (db : DoubleBuffer) : Prop :=
  (back db = Some x ∧ next db = None ∧ prev db = []) ∨
  (back db = None ∧ next db = Some x ∧ prev db = []) ∨
  (back db = None ∧ next db = None ∧ prev db = [Some x]).

(** One full turn: [Ready], then [Next], then [Back] with a context that is
    not done. *)
Definition rotate (sel : Select) (db : DoubleBuffer) : DoubleBuffer :=
  (Back Background sel (Next (Ready db)).2).2.

(** The two loops of the benchmark taking turns: one round of the feeder
    ([Back], write, [Ready]) for each value, each followed by one call of
    [Next] by the eater. The results of the calls of [Next] are collected;
    [None] when a round of the feeder gets no slot or [Next] does not
    return. *)
Fixpoint feed_eat (ctx : Context) (sel : Select) (vs : list T)
    (db : DoubleBuffer) : option (list (T * bool) * DoubleBuffer) :=
  match vs with
  | [] => Some ([], db)
  | v :: vs' =>
      match publish ctx sel v db with
      | Some db1 =>
          match Next db1 with
          | (Returns r, db2) =>
              match feed_eat ctx sel vs' db2 with
              | Some (rs, db3) => Some (r :: rs, db3)
              | None => None
              end
          | _ => None
          end
      | None => None
      end
  end.

(** A call of [Next] that returned [changed = true]. *)
Definition is_changed (r : Ret) : bool :=
  match r with RNext (Returns (_, true)) => true | _ => false end.

(** A write to a slot. *)
Definition is_write (ev : Event) : Prop := ∃ p v r, ev = EvCall (CStore p v) r.

(** A goroutine between line 72 and line 75 of a call that found a
    submission. *)
Definition mid (pc : NextPC) : Prop :=
  match pc with AtSend _ | AtAssign _ => True | _ => False end.

(** Interleavings in which a goroutine calls [Next] only when no other call
    of [Next] is under way: one consumer, any producer. *)
Inductive solo_trace : Pool → list Event → Pool → Prop :=
  | solo_nil σ : solo_trace σ [] σ
  | solo_cons σ ev σ' tr σ'' :
      pstep σ ev σ' →
      (ev = EvGo → Forall finished σ.2) →
      solo_trace σ' tr σ'' →
      solo_trace σ (ev :: tr) σ''.

Definition solo_inv (σ : Pool) : Prop :=
  (∀ i j pc pc', σ.2 !! i = Some pc → σ.2 !! j = Some pc' →
     ¬ finished pc → ¬ finished pc' → i = j) ∧
  ∃ x y, x ≠ y ∧ front σ.1 = Some y ∧
    ((Forall (λ pc, ¬ mid pc) σ.2 ∧ held x σ.1) ∨
     ((∃ i, σ.2 !! i = Some (AtSend (Some x))) ∧
      back σ.1 = None ∧ next σ.1 = None ∧ prev σ.1 = []) ∨
     ((∃ i, σ.2 !! i = Some (AtAssign (Some x))) ∧ held y σ.1)).

Definition is_Ready (c : Call) : bool :=
  match c with CReady => true | _ => false end.

Definition is_Back (c : Call) : bool :=
  match c with CBack _ _ => true | _ => false end.

End DoubleBuffer.

Arguments DoubleBuffer T : clear implicits.
Arguments Call T : clear implicits.
Arguments Ret T : clear implicits.
Arguments NextPC T : clear implicits.
Arguments Pool T : clear implicits.
Arguments Event T : clear implicits.

(** * Properties *)

Section Sequential.

Context {T : Type}.
Implicit Types (db : DoubleBuffer T) (c : Call T) (cs : list (Call T)).
Implicit Types (s x y : Slot) (p : Ptr) (ctx : Context) (sel : Select).

(** ** Single calls *)

Lemma Back_writable db s ctx sel :
  back db = Some s → Back ctx sel db = (Returns (Some s, None), db).
Proof. intros Hb. unfold Back. by rewrite Hb. Qed.

Lemma Back_cancelled db e sel :
  back db = None → prev db = [] →
  Back (Some e) sel db = (Returns (None, Some e), db).
Proof. intros Hb Hp. unfold Back. by rewrite Hb, Hp. Qed.

Lemma Back_blocks db sel :
  back db = None → prev db = [] → Back Background sel db = (Blocks, db).
Proof. intros Hb Hp. unfold Back, Background. by rewrite Hb, Hp. Qed.

Lemma Back_reclaims db p q sel :
  back db = None → prev db = p :: q →
  Back Background sel db = (Returns (p, None), set_back p (set_prev q db)).
Proof. intros Hb Hp. unfold Back, Background. by rewrite Hb, Hp. Qed.

Lemma Back_reclaims_picked db p q ctx :
  back db = None → prev db = p :: q →
  Back ctx PickRecv db = (Returns (p, None), set_back p (set_prev q db)).
Proof. intros Hb Hp. unfold Back. rewrite Hb, Hp. by destruct ctx. Qed.

Lemma Ready_submitted db : back db = None → Ready db = db.
Proof. intros Hb. unfold Ready. by rewrite Hb. Qed.

Lemma Ready_writable db s :
  back db = Some s → Ready db = set_back None (set_next (Some s) db).
Proof. intros Hb. unfold Ready. by rewrite Hb. Qed.

Lemma Next_idle db y :
  next db = None → front db = Some y →
  Next db = (Returns (load y db, false), db).
Proof.
  intros Hn Hf. unfold Next. rewrite Hn. simpl.
  unfold Next_return. simpl. rewrite Hf. simpl.
  destruct db; simpl in *; by subst.
Qed.

Lemma Next_adopts db x :
  next db = Some x → prev db = [] →
  Next db = (Returns (load x db, true),
             set_front (Some x) (set_prev [front db] (set_next None db))).
Proof.
  intros Hn Hp. unfold Next. rewrite Hn. simpl. rewrite Hp. simpl.
  unfold Next_return. simpl. by destruct x.
Qed.

Lemma back_Next db : back (Next db).2 = back db.
Proof.
  unfold Next, Next_return.
  destruct (next db); simpl; [destruct (prev db); simpl|];
    repeat (case_match; simpl); done.
Qed.

Lemma exec_state c db :
  (exec c db).2 =
    match c with
    | CBack ctx sel => (Back ctx sel db).2
    | CReady => Ready db
    | CFront => db
    | CNext => (Next db).2
    | CStore p v => (Store p v db).2
    end.
Proof.
  destruct c as [ctx sel| | | |p v]; simpl; try done.
  - by destruct (Back ctx sel db).
  - by destruct (Next db).
  - by destruct (Store p v db).
Qed.

Lemma back_exec c db : is_Ready c = false → is_Back c = false →
  back (exec c db).2 = back db.
Proof.
  destruct c as [ | | | |p v]; simpl; try done; intros _ _.
  - pose proof (back_Next db) as H. by destruct (Next db).
  - by destruct p as [[]|].
Qed.

(** ** The rotation, when calls follow one another *)

Lemma rotating_New (a0 b0 : T) : rotating (New a0 b0).
Proof. exists SlotA, SlotB. split; [done|]. split; [done|]. by left. Qed.

Lemma rotating_store s v db : rotating db → rotating (store s v db).
Proof. intros (x & y & ? & ? & ?). exists x, y. by destruct s. Qed.

Lemma rotating_Back ctx sel db : rotating db → rotating (Back ctx sel db).2.
Proof.
  intros (x & y & Hxy & Hf & [(Hb & Hn & Hp)|[(Hb & Hn & Hp)|(Hb & Hn & Hp)]]).
  - rewrite (Back_writable _ x) by done. exists x, y. by eauto 10.
  - unfold Back. rewrite Hb, Hp. destruct ctx; exists x, y; by eauto 10.
  - unfold Back. rewrite Hb, Hp.
    destruct ctx, sel; simpl; exists x, y; simpl; by eauto 10.
Qed.

Lemma rotating_Ready db : rotating db → rotating (Ready db).
Proof.
  intros (x & y & Hxy & Hf & [(Hb & Hn & Hp)|[(Hb & Hn & Hp)|(Hb & Hn & Hp)]]).
  - rewrite (Ready_writable _ x) by done. exists x, y. simpl. by eauto 10.
  - rewrite Ready_submitted by done. exists x, y. by eauto 10.
  - rewrite Ready_submitted by done. exists x, y. by eauto 10.
Qed.

Lemma rotating_Next db : rotating db → rotating (Next db).2.
Proof.
  intros (x & y & Hxy & Hf & [(Hb & Hn & Hp)|[(Hb & Hn & Hp)|(Hb & Hn & Hp)]]).
  - rewrite (Next_idle _ y) by done. exists x, y. by eauto 10.
  - rewrite (Next_adopts _ x) by done. exists y, x. simpl. rewrite Hf.
    by eauto 10.
  - rewrite (Next_idle _ y) by done. exists x, y. by eauto 10.
Qed.

Lemma rotating_exec c db : rotating db → rotating (exec c db).2.
Proof.
  intros Hr. destruct c as [ctx sel| | | |p v]; simpl.
  - pose proof (rotating_Back ctx sel db Hr). by destruct (Back ctx sel db).
  - by apply rotating_Ready.
  - done.
  - pose proof (rotating_Next db Hr). by destruct (Next db).
  - destruct p as [s|]; simpl; [by apply rotating_store|done].
Qed.

Lemma reachable_rotating db : reachable db → rotating db.
Proof.
  induction 1 as [a0 b0|c db _ IH]; [apply rotating_New|by apply rotating_exec].
Qed.

(** In a reachable state [Front] and [Next] return: no nil dereference, no
    send on a full channel. *)
Lemma Front_returns db : reachable db → ∃ t, Front db = Returns t.
Proof.
  intros Hr. apply reachable_rotating in Hr as (x & y & _ & Hf & _).
  exists (load y db). unfold Front. by rewrite Hf.
Qed.

Lemma Next_returns db :
  reachable db → ∃ t changed, (Next db).1 = Returns (t, changed).
Proof.
  intros Hr. apply reachable_rotating in Hr.
  destruct Hr as (x & y & _ & Hf & [(_ & Hn & _)|[(_ & Hn & Hp)|(_ & Hn & _)]]).
  - rewrite (Next_idle _ y) by done. by eauto.
  - rewrite (Next_adopts _ x) by done. by eauto.
  - rewrite (Next_idle _ y) by done. by eauto.
Qed.

Lemma run_cons c cs db :
  run (c :: cs) db =
    ((exec c db).1 :: (run cs (exec c db).2).1, (run cs (exec c db).2).2).
Proof. simpl. destruct (exec c db). simpl. by destruct (run cs d). Qed.

Lemma reachable_run cs db : reachable db → reachable (run cs db).2.
Proof.
  revert db. induction cs as [|c cs IH]; intros db Hr; simpl; [done|].
  pose proof (reachable_exec c db Hr) as H1.
  destruct (exec c db) as [r db1]. simpl in H1.
  specialize (IH db1 H1). by destruct (run cs db1).
Qed.

(** ** Construction *)

(** C9. After [New(a, b)], [Front] returns [b], and the first [Back] returns,
    whatever its context, without blocking and without error, the slot that
    was initialised with [a]; the state is as [New] left it. *)
Theorem New_assigns_roles (a0 b0 : T) ctx sel :
  Front (New a0 b0) = Returns b0 ∧
  Back ctx sel (New a0 b0) = (Returns (Some SlotA, None), New a0 b0) ∧
  load SlotA (New a0 b0) = a0.
Proof. done. Qed.

(** ** [Back] in the Writable state *)

(** C10. When [back] is not nil, [Back] returns [back] and a nil error for
    every context, also one that is cancelled or past its deadline, and
    leaves the state as it was: the context is looked at only inside the
    branch for [back == nil]. *)
Theorem Back_writable_ignores_ctx db ctx sel :
  back db ≠ None → Back ctx sel db = (Returns (back db, None), db).
Proof.
  intros Hb. destruct (back db) as [s|] eqn:E; [|done].
  by apply Back_writable.
Qed.

(** ** Idempotence *)

(** C3. In a state where [back] is some slot [s], every call of [Back]
    returns [s] with no error, does not block and changes nothing; the same
    holds for every call of [Back] in a run of calls among which there is no
    [Ready]. In a state where [back] is nil, [Ready] changes nothing; in a
    run of calls among which there is no [Back], the calls of [Ready] can be
    deleted without changing the final state, and [back] is still nil. *)
Theorem Back_Ready_idempotent db :
  (∀ s, back db = Some s →
    (∀ ctx sel, Back ctx sel db = (Returns (Some s, None), db)) ∧
    ∀ cs, Forall (λ c, is_Ready c = false) cs →
      back (run cs db).2 = Some s ∧
      ∀ r, RBack r ∈ (run cs db).1 → r = Returns (Some s, None)) ∧
  (back db = None →
    Ready db = db ∧
    ∀ cs, Forall (λ c, is_Back c = false) cs →
      (run cs db).2 = (run (filter (λ c, is_Ready c = false) cs) db).2 ∧
      back (run cs db).2 = None).
Proof.
  split.
  - intros s Hb. split; [intros; by apply Back_writable|].
    intros cs Hcs. revert db Hb.
    induction Hcs as [|c cs Hc _ IH]; intros db Hb.
    { split; [done|]. intros r Hr. by apply elem_of_nil in Hr. }
    rewrite run_cons. simpl.
    destruct (is_Back c) eqn:HB.
    + destruct c as [ctx sel| | | |]; try done. simpl.
      rewrite (Back_writable _ s) by done. simpl.
      destruct (IH db Hb) as [IH1 IH2]. split; [done|].
      intros r Hr. apply elem_of_cons in Hr as [Hr|Hr]; [by inversion Hr|].
      by apply IH2.
    + assert (back (exec c db).2 = Some s) as Hb'
        by (by rewrite back_exec).
      destruct (IH _ Hb') as [IH1 IH2]. split; [done|].
      intros r Hr. apply elem_of_cons in Hr as [Hr|Hr]; [|by apply IH2].
      destruct c; simpl in *; try done; by repeat case_match.
  - intros Hb. split; [by apply Ready_submitted|].
    intros cs Hcs. revert db Hb.
    induction Hcs as [|c cs Hc _ IH]; intros db Hb; [done|].
    rewrite run_cons. simpl.
    destruct (is_Ready c) eqn:HR.
    + destruct c; try done. simpl. rewrite Ready_submitted by done.
      rewrite filter_cons_False by (simpl; congruence). by apply IH.
    + rewrite filter_cons_True by done. rewrite run_cons. simpl.
      apply IH. by rewrite back_exec.
Qed.

(** ** Roles *)

(** When no two calls overlap the roles stay apart: in every state reached
    from [New] by calls of [Back], [Ready], [Front], [Next] and writes to the
    slots, each call complete before the next one starts, [front] is not the
    slot [back] when [back] is not nil. *)
Theorem front_back_never_alias db :
  reachable db → back db ≠ None → front db ≠ back db.
Proof.
  intros Hr Hb. apply reachable_rotating in Hr.
  destruct Hr as (x & y & Hxy & Hf & [(Hk & _)|[(Hk & _)|(Hk & _)]]);
    rewrite Hk in Hb; try done.
  rewrite Hf, Hk. congruence.
Qed.

(** ** Cancellation *)

(** C4. [Back] is called in a reachable state with [back] nil and nothing in
    the channel, with a context that is done with error [e]. The call
    returns nil and [e] and the state is the one before the call. In that
    state a submission [x] waits in the cell and some slot [y] is front:
    [Next] adopts [x], reports [changed = true] and sends [y]; after it
    [Back] returns [y] with no error, for a context that is not done whatever
    the select picks, and for any context when the select picks the receive. *)
Theorem Back_cancel_then_retry db e sel :
  reachable db → back db = None → prev db = [] →
  Back (Some e) sel db = (Returns (None, Some e), db) ∧
  ∃ x y db',
    next db = Some x ∧ front db = Some y ∧
    Next (Back (Some e) sel db).2 = (Returns (load x db, true), db') ∧
    (∀ sel', (Back Background sel' db').1 = Returns (Some y, None)) ∧
    (∀ ctx', (Back ctx' PickRecv db').1 = Returns (Some y, None)).
Proof.
  intros Hr Hb Hp. rewrite Back_cancelled by done. split; [done|].
  apply reachable_rotating in Hr.
  destruct Hr as (x & y & Hxy & Hf & [(Hk & _)|[(_ & Hn & _)|(_ & _ & Hk)]]);
    [congruence| |congruence].
  exists x, y. eexists. split; [done|]. split; [done|]. simpl.
  split; [by apply Next_adopts|]. rewrite Hf.
  split; intros; [by erewrite Back_reclaims|by erewrite Back_reclaims_picked].
Qed.

(** ** Scenarios *)

(** C1. [New(0, 0)]; [Back] returns the slot [a]; 42 is written into it;
    [Ready]; [Next] returns [(42, true)]; [Next] again returns [(42, false)];
    [Back] then returns, without blocking, the slot [b], which was front
    before the first [Next] and still holds 0. *)
Theorem round_trip ctx sel sel' :
  let cs := [CBack ctx sel; CStore (Some SlotA) 42; CReady; CNext; CNext;
             CBack Background sel'] in
  (run cs (New 0 0)).1 =
    [RBack (Returns (Some SlotA, None)); RStore (Returns tt); RReady;
     RNext (Returns (42, true)); RNext (Returns (42, false));
     RBack (Returns (Some SlotB, None))] ∧
  front (run (take 3 cs) (New 0 0)).2 = Some SlotB ∧
  back (run cs (New 0 0)).2 = Some SlotB ∧
  load SlotB (run cs (New 0 0)).2 = 0.
Proof. by destruct ctx, sel, sel'. Qed.

(** C2 as it is stated fails. The second publish does not take place: after
    [New(0, 0)] and a publish of 1, no call of [Back] hands out a slot as
    long as [Next] has not run, so no second publish can precede the first
    [Next]. *)
Lemma no_second_publish_before_Next :
  ¬ ∃ ctx1 sel1 ctx2 sel2 (db1 db2 : DoubleBuffer Z),
      publish ctx1 sel1 1 (New 0 0) = Some db1 ∧
      publish ctx2 sel2 2 db1 = Some db2 ∧
      (Next db2).1 = Returns (2, true).
Proof.
  intros (ctx1 & sel1 & ctx2 & sel2 & db1 & db2 & H1 & H2 & _).
  cbn in H1. injection H1 as <-. by destruct ctx2, sel2.
Qed.

(** C2, amended. After [New(a, b)] and a publish of [v1], [Front] is still
    [b]; as long as [Next] has not run, [Back] hands out no slot (it blocks,
    or returns the error of a context that is done) and [Ready] changes
    nothing, so there is no second publish and the cell keeps the first
    submission. One call of [Next] makes [v1] front; after it a publish of
    [v2] takes place, and one more call of [Next] makes [v2] front. *)
Theorem second_publish_waits_for_Next (a0 b0 v1 v2 : T) ctx sel :
  ∃ db1,
    publish ctx sel v1 (New a0 b0) = Some db1 ∧
    Front db1 = Returns b0 ∧
    (∀ ctx' sel',
       publish ctx' sel' v2 db1 = None ∧
       Back ctx' sel' db1 =
         (match ctx' with
          | None => Blocks
          | Some e => Returns (None, Some e)
          end, db1)) ∧
    Ready db1 = db1 ∧
    ∃ db2,
      Next db1 = (Returns (v1, true), db2) ∧
      ∀ sel', ∃ db3 db4,
        publish Background sel' v2 db2 = Some db3 ∧
        Next db3 = (Returns (v2, true), db4) ∧
        Next db4 = (Returns (v2, false), db4).
Proof.
  eexists. split; [reflexivity|]. split; [reflexivity|].
  split; [intros [e|] sel'; by split|]. split; [reflexivity|].
  eexists. split; [reflexivity|].
  intros sel'. do 2 eexists. by split_and!.
Qed.

(** ** Backpressure, for calls that follow one another *)

Lemma pending_run cs db :
  back db = None → prev db = [] → next db ≠ None →
  (∀ t, RNext (Returns (t, true)) ∉ (run cs db).1) →
  (∀ p, RBack (Returns (p, None)) ∉ (run cs db).1) ∧
  back (run cs db).2 = None ∧ prev (run cs db).2 = [].
Proof.
  revert db. induction cs as [|c cs IH]; intros db Hb Hp Hn Hno.
  { split; [|done]. intros p H. by apply elem_of_nil in H. }
  rewrite run_cons in *. simpl in *.
  assert (∀ t, RNext (Returns (t, true)) ∉ (run cs (exec c db).2).1) as Hno'.
  { intros t H. apply (Hno t). by apply elem_of_cons; right. }
  assert ((∀ p, (exec c db).1 ≠ RBack (Returns (p, None))) ∧
          back (exec c db).2 = None ∧ prev (exec c db).2 = [] ∧
          next (exec c db).2 ≠ None) as (Hr & Hb' & Hp' & Hn').
  { destruct c as [ctx sel| | | |p v]; simpl.
    - destruct ctx as [e|].
      + by rewrite Back_cancelled.
      + by rewrite Back_blocks.
    - by rewrite Ready_submitted.
    - done.
    - destruct (next db) as [x|] eqn:Hx; [|done]. exfalso.
      apply (Hno (load x db)). apply elem_of_cons; left. simpl.
      by rewrite (Next_adopts _ x).
    - by destruct p as [[]|]. }
  destruct (IH _ Hb' Hp' Hn' Hno') as (IH1 & IH2 & IH3).
  split; [|done]. intros p H.
  apply elem_of_cons in H as [H|H]; [by eapply Hr|by eapply IH1].
Qed.

(** Backpressure when calls follow one another: after [Ready] in a
    reachable state with [back] not nil, as long as no call of [Next] has
    returned [changed = true], no call of [Back] returns with a nil error. *)
Lemma Back_waits_for_Next_run db cs :
  reachable db → back db ≠ None →
  (∀ t, RNext (Returns (t, true)) ∉ (run cs (Ready db)).1) →
  (∀ p, RBack (Returns (p, None)) ∉ (run cs (Ready db)).1) ∧
  back (run cs (Ready db)).2 = None.
Proof.
  intros Hr Hb Hno. apply reachable_rotating in Hr.
  destruct Hr as (x & y & _ & _ & [(Hk & Hn & Hp)|[(Hk & _)|(Hk & _)]]);
    [|congruence|congruence].
  destruct (pending_run cs (Ready db)) as (H1 & H2 & _); try done;
    by rewrite (Ready_writable _ x).
Qed.

End Sequential.

(** * Goroutines *)

Section Concurrent.

Context {T : Type}.
Implicit Types (db : DoubleBuffer T) (c : Call T) (pc : NextPC T).
Implicit Types (pcs : list (NextPC T)) (σ : Pool T) (ev : Event T).
Implicit Types (s x y : Slot) (p : Ptr) (ctx : Context) (sel : Select).

(** ** A call of [Next] that runs alone *)

Lemma next_steps_Next db :
  next_steps 4 db AtSwap =
    ((Next db).2,
     match (Next db).1 with
     | Returns (t, changed) => Returned t changed
     | Blocks => AtSend (next db)
     | Panics => Panicked
     end).
Proof.
  unfold Next, Next_return. simpl.
  destruct (next db) as [x|] eqn:Hn; simpl.
  - destruct (decide (length (prev db) < prev_cap)%nat); simpl; [|done].
    by destruct x.
  - by destruct (front db) as [[]|].
Qed.

(** The flag a call returns is decided at line 72: the local [next] is
    carried unchanged to line 77, and [changed] is [next != nil]. *)
Lemma next_step_changed db pc db' pc' :
  next_step db pc = Some (db', pc') →
  match pc with
  | AtSwap => (∃ s, next db = Some s ∧ pc' = AtSend (Some s)) ∨
              (next db = None ∧ pc' = AtReturn None)
  | AtSend nx => pc' = AtAssign nx
  | AtAssign nx => pc' = AtReturn nx
  | AtReturn nx => pc' = Panicked ∨ ∃ t, pc' = Returned t (non_nil nx)
  | _ => False
  end.
Proof.
  destruct pc as [|nx|nx|nx| |]; simpl; try done.
  - intros [= <- <-]. destruct (next db) as [s|]; simpl; [left|right]; eauto.
  - destruct (decide _); [|done]. by intros [= <- <-].
  - by intros [= <- <-].
  - destruct (deref (front db) db); intros [= <- <-]; eauto.
Qed.

(** ** Counting the places that hold the free slot *)

Lemma sum_list_with_insert {A} (f : A → nat) (l : list A) i (u v : A) :
  l !! i = Some u →
  (sum_list_with f (<[i:=v]> l) + f u = sum_list_with f l + f v)%nat.
Proof.
  revert i. induction l as [|z l IH]; intros [|i] Hi; simpl in *; try done.
  - injection Hi as ->. lia.
  - specialize (IH i Hi). lia.
Qed.

Lemma sending_lookup pcs i pc :
  pcs !! i = Some pc → (sending pc ≤ sum_list_with sending pcs)%nat.
Proof.
  revert i. induction pcs as [|q pcs IH]; intros [|i] Hi; simpl in *; try done.
  - injection Hi as ->. lia.
  - specialize (IH i Hi). lia.
Qed.

Lemma sending_snoc pcs pc :
  sum_list_with sending (pcs ++ [pc])
  = (sum_list_with sending pcs + sending pc)%nat.
Proof. induction pcs as [|q pcs IH]; simpl; lia. Qed.

Lemma pool_inv_intro db pcs :
  (holds (back db) + holds (next db) + length (prev db)
   + sum_list_with sending pcs = 1)%nat →
  front db ≠ None →
  Forall (λ p, p ≠ None) (prev db) →
  Forall pc_ok pcs →
  pool_inv (db, pcs).
Proof. by repeat split. Qed.

Lemma pool_inv_New (a0 b0 : T) : pool_inv (New a0 b0, []).
Proof. by apply pool_inv_intro. Qed.

Lemma pool_inv_call c db pcs :
  pool_inv (db, pcs) → c ≠ CNext → pool_inv ((exec c db).2, pcs).
Proof.
  intros Hinv Hc. pose proof Hinv as (Ht & Hf & Hq & Hpc).
  unfold tokens in Ht. simpl in *.
  rewrite exec_state. destruct c as [ctx sel| | | |p v]; simpl; try done.
  - unfold Back. destruct (back db) as [s|] eqn:Hb; [done|].
    destruct (prev db) as [|p q] eqn:Hp; [by destruct ctx|].
    apply Forall_cons in Hq as [Hp0 Hq].
    assert (pool_inv (set_back p (set_prev q db), pcs)) as Hrecv.
    { apply pool_inv_intro; simpl; try done.
      destruct p; [|done]. simpl in *. lia. }
    destruct ctx as [e|]; [destruct sel|]; simpl; done.
  - unfold Ready. destruct (back db) as [s|] eqn:Hb; [|done].
    apply pool_inv_intro; simpl; try done. simpl in *. lia.
  - destruct p as [[]|]; simpl; try done; by apply pool_inv_intro.
Qed.

Lemma pool_inv_nstep σ i pc' σ' : pool_inv σ → nstep σ i pc' σ' → pool_inv σ'.
Proof.
  intros Hinv Hs.
  destruct Hs as [db pcs i pc db' pc' Hi Hstep].
  pose proof Hinv as (Ht & Hf & Hq & Hpc).
  unfold tokens in Ht. simpl in *.
  pose proof (sum_list_with_insert sending pcs i pc pc' Hi) as Hsum.
  pose proof (proj1 (Forall_lookup _ _) Hpc i pc Hi) as Hok.
  destruct pc as [|nx|nx|nx| |]; simpl in Hstep; try done.
  - injection Hstep as <- <-.
    destruct (next db) as [x|] eqn:Hn; simpl in *.
    + apply pool_inv_intro; simpl; try done; [lia|by apply Forall_insert].
    + apply pool_inv_intro; simpl; try done; [lia|by apply Forall_insert].
  - destruct (decide (length (prev db) < prev_cap)%nat) as [Hlt|]; [|done].
    injection Hstep as <- <-.
    apply pool_inv_intro; simpl; try done.
    + rewrite length_app. simpl in *. lia.
    + apply Forall_app. split; [done|]. by apply Forall_singleton.
    + by apply Forall_insert.
  - injection Hstep as <- <-.
    apply pool_inv_intro; simpl; try done; [simpl in *; lia|].
    by apply Forall_insert.
  - assert (db' = db ∧ sending pc' = 0%nat ∧ pc_ok pc') as (-> & H0 & Hok').
    { destruct (deref (front db) db); by injection Hstep as <- <-. }
    apply pool_inv_intro; simpl; try done; [simpl in *; lia|].
    by apply Forall_insert.
Qed.

Lemma pool_inv_pstep σ ev σ' : pool_inv σ → pstep σ ev σ' → pool_inv σ'.
Proof.
  intros Hinv Hs. destruct Hs as [c db pcs r db' Hc He _|db pcs|σ0 i pc' σ0' Hs].
  - pose proof (pool_inv_call c db pcs Hinv Hc) as H. by rewrite He in H.
  - destruct Hinv as (Ht & Hf & Hq & Hpc). unfold tokens in Ht. simpl in *.
    apply pool_inv_intro; try done.
    + rewrite sending_snoc. simpl. lia.
    + apply Forall_app. split; [done|]. by apply Forall_singleton.
  - by eapply pool_inv_nstep.
Qed.

Lemma pool_inv_trace σ tr σ' : pool_inv σ → trace σ tr σ' → pool_inv σ'.
Proof.
  intros Hinv Htr. induction Htr as [|σ ev σ' tr σ'' Hs _ IH]; [done|].
  apply IH. by eapply pool_inv_pstep.
Qed.

(** ** Runs of calls are interleavings *)

Lemma trace_app σ tr1 σ' tr2 σ'' :
  trace σ tr1 σ' → trace σ' tr2 σ'' → trace σ (tr1 ++ tr2) σ''.
Proof.
  intros H1 H2. induction H1 as [|σ ev σ1 tr σ' Hs _ IH]; [done|].
  simpl. eapply trace_cons; [done|]. by apply IH.
Qed.

Lemma next_steps_trace fuel db pc pcs i :
  pcs !! i = Some pc →
  ∃ tr, trace (db, pcs) tr
          ((next_steps fuel db pc).1, <[i:=(next_steps fuel db pc).2]> pcs).
Proof.
  revert db pc pcs. induction fuel as [|fuel IH]; intros db pc pcs Hi; simpl.
  { exists []. rewrite list_insert_id by done. constructor. }
  destruct (next_step db pc) as [[db' pc']|] eqn:Hstep; simpl.
  - destruct (IH db' pc' (<[i:=pc']> pcs)) as [tr Htr].
    { apply list_lookup_insert_eq. by eapply lookup_lt_Some. }
    rewrite list_insert_insert_eq in Htr.
    exists (EvNext i pc' :: tr). eapply trace_cons; [|done].
    by apply pstep_next, nstep_thread with pc.
  - exists []. rewrite list_insert_id by done. constructor.
Qed.

Lemma Back_Blocks_state ctx sel db db' :
  Back ctx sel db = (Blocks, db') → db' = db.
Proof.
  unfold Back, recv_prev. intros H.
  destruct (back db), ctx, (prev db), sel; simpl in H; congruence.
Qed.

Lemma reachable_trace db :
  reachable db → ∃ a0 b0 tr pcs, trace (New a0 b0, []) tr (db, pcs).
Proof.
  induction 1 as [a0 b0|c db _ (a0 & b0 & tr & pcs & Htr)].
  { exists a0, b0, [], []. constructor. }
  exists a0, b0.
  destruct (exec c db) as [r db'] eqn:He. simpl.
  destruct c as [ctx sel| | | |p v].
  - simpl in He. destruct (Back ctx sel db) as [[pe| |] db1] eqn:HB;
      injection He as <- <-.
    + exists (tr ++ [EvCall (CBack ctx sel) (RBack (Returns pe))]), pcs.
      eapply trace_app; [done|]. eapply trace_cons; [|constructor].
      apply pstep_call; [done|by simpl; rewrite HB|by unfold blocked].
    + apply Back_Blocks_state in HB as ->. by exists tr, pcs.
    + exists (tr ++ [EvCall (CBack ctx sel) (RBack Panics)]), pcs.
      eapply trace_app; [done|]. eapply trace_cons; [|constructor].
      apply pstep_call; [done|by simpl; rewrite HB|by unfold blocked].
  - exists (tr ++ [EvCall CReady r]), pcs.
    eapply trace_app; [done|]. eapply trace_cons; [|constructor].
    apply pstep_call; [done|done|]. simpl in He. injection He as <- <-.
    by unfold blocked.
  - exists (tr ++ [EvCall CFront r]), pcs.
    eapply trace_app; [done|]. eapply trace_cons; [|constructor].
    apply pstep_call; [done|done|]. simpl in He. injection He as <- <-.
    by unfold blocked.
  - destruct (next_steps_trace 4 db AtSwap (pcs ++ [AtSwap]) (length pcs))
      as [tr' Htr'].
    { by apply list_lookup_middle. }
    rewrite next_steps_Next in Htr'. simpl in Htr'.
    simpl in He. destruct (Next db) as [r1 db1]. injection He as <- <-.
    eexists (tr ++ EvGo :: tr'), _.
    eapply trace_app; [done|]. eapply trace_cons; [apply pstep_go|done].
  - exists (tr ++ [EvCall (CStore p v) r]), pcs.
    eapply trace_app; [done|]. eapply trace_cons; [|constructor].
    apply pstep_call; [done|done|]. simpl in He.
    destruct (Store p v db). injection He as <- <-. by unfold blocked.
Qed.

(** ** The reclaim channel *)

(** C6. In every state the buffer and the goroutines reach from [New],
    whatever the interleaving, the channel holds at most [prev_cap = 1]
    pointer; it is empty whenever the cell holds a submission, that is
    whenever line 72 would take one; it is empty whenever a goroutine stands
    before the send of line 74, and that send goes through; and a call of
    [Next] run from there does not block. *)
Theorem reclaim_channel_never_full (a0 b0 : T) tr db pcs :
  trace (New a0 b0, []) tr (db, pcs) →
  (length (prev db) ≤ prev_cap)%nat ∧
  (next db ≠ None → prev db = []) ∧
  (∀ i nx, pcs !! i = Some (AtSend nx) →
     prev db = [] ∧
     next_step db (AtSend nx) = Some (set_prev [front db] db, AtAssign nx)) ∧
  (Next db).1 ≠ Blocks.
Proof.
  intros Htr. apply pool_inv_trace in Htr; [|apply pool_inv_New].
  destruct Htr as (Ht & Hf & _ & _). unfold tokens in Ht. simpl in *.
  assert (next db ≠ None → prev db = []) as Hempty.
  { intros Hn. destruct (next db); [|done]. simpl in Ht.
    apply nil_length_inv. lia. }
  split_and!; [unfold prev_cap; lia|done| |].
  - intros i nx Hi. apply sending_lookup in Hi. simpl in Hi.
    assert (prev db = []) as Hp by (apply nil_length_inv; lia).
    split; [done|]. simpl. by rewrite Hp.
  - unfold Next, Next_return. destruct (next db) as [x|] eqn:Hn; simpl.
    + rewrite Hempty by done. simpl. by destruct x.
    + by destruct (front db) as [[]|].
Qed.

(** ** Backpressure *)

Lemma awaiting_pstep σ ev σ' :
  awaiting σ → pstep σ ev σ' → ¬ takes_pending ev →
  awaiting σ' ∧ ¬ back_succeeds ev.
Proof.
  intros Haw Hs Hev.
  destruct Hs as [c db pcs r db' Hc He _|db pcs|σ0 i pc' σ0' Hs].
  - destruct Haw as (Hb & Hp & Hpcs). simpl in *.
    destruct c as [ctx sel| | | |p v]; simpl in He; try done.
    + destruct ctx as [e|].
      * rewrite Back_cancelled in He by done. injection He as <- <-.
        split; [done|]. by intros (? & ? & ? & ?).
      * rewrite Back_blocks in He by done. injection He as <- <-.
        split; [done|]. by intros (? & ? & ? & ?).
    + injection He as <- <-. rewrite Ready_submitted by done.
      split; [done|]. by intros (? & ? & ? & ?).
    + injection He as <- <-. split; [done|]. by intros (? & ? & ? & ?).
    + destruct p as [[]|]; injection He as <- <-;
        (split; [done|]; by intros (? & ? & ? & ?)).
  - destruct Haw as (Hb & Hp & Hpcs). simpl in *.
    split; [|by intros (? & ? & ? & ?)].
    split_and!; simpl; try done.
    apply Forall_app. split; [done|]. by apply Forall_singleton.
  - split; [|by intros (? & ? & ? & ?)].
    destruct Hs as [db pcs i pc db' pc' Hi Hstep].
    destruct Haw as (Hb & Hp & Hpcs). simpl in *.
    pose proof (proj1 (Forall_lookup _ _) Hpcs i pc Hi) as H0.
    destruct pc as [|nx|nx|nx| |]; simpl in Hstep; try done.
    + injection Hstep as <- <-.
      destruct (next db) as [x|] eqn:Hn; simpl in *.
      { exfalso. apply Hev. by exists i, x. }
      split_and!; simpl; try done. by apply Forall_insert.
    + injection Hstep as <- <-.
      split_and!; simpl; try done. by apply Forall_insert.
    + assert (db' = db ∧ sending pc' = 0%nat) as (-> & H1).
      { destruct (deref (front db) db); by injection Hstep as <- <-. }
      split_and!; simpl; try done. by apply Forall_insert.
Qed.

(** C7. In a state the buffer and the goroutines reach from [New], with
    [back] not nil, the producer calls [Ready]. In every interleaving that
    follows, as long as no goroutine has taken the submission out of the
    cell at line 72 (the call of [Next] that reports [changed = true]), no
    call of [Back] returns with a nil error and [back] stays nil: a call of
    [Back] blocks while its context is not done, and returns nil and the
    error of the context once it is. *)
Theorem Back_waits_for_Next (a0 b0 : T) tr0 db pcs tr σ' :
  trace (New a0 b0, []) tr0 (db, pcs) →
  back db ≠ None →
  trace (Ready db, pcs) tr σ' →
  Forall (λ ev, ¬ takes_pending ev) tr →
  Forall (λ ev, ¬ back_succeeds ev) tr ∧
  back σ'.1 = None ∧
  (∀ sel, Back Background sel σ'.1 = (Blocks, σ'.1)) ∧
  (∀ e sel, Back (Some e) sel σ'.1 = (Returns (None, Some e), σ'.1)).
Proof.
  intros Htr0 Hb Htr Hev.
  assert (awaiting (Ready db, pcs)) as Haw.
  { apply pool_inv_trace in Htr0; [|apply pool_inv_New].
    destruct Htr0 as (Ht & _ & _ & _). unfold tokens in Ht. simpl in Ht.
    destruct (back db) as [s|] eqn:Hs; [|done]. simpl in Ht.
    rewrite (Ready_writable _ s) by done. split_and!; simpl.
    - done.
    - apply nil_length_inv. lia.
    - apply Forall_lookup. intros i pc Hi.
      apply sending_lookup in Hi. lia. }
  clear Htr0 Hb.
  assert (Forall (λ ev, ¬ back_succeeds ev) tr ∧ awaiting σ') as [H1 H2].
  { induction Htr as [|σ ev σ1 tr σ' Hs _ IH]; [done|].
    apply Forall_cons in Hev as [Hev1 Hev2].
    destruct (awaiting_pstep _ _ _ Haw Hs Hev1) as [Haw1 Hns].
    destruct (IH Hev2 Haw1) as [IH1 IH2]. split; [|done].
    by apply Forall_cons. }
  destruct H2 as (Hb & Hp & _). split; [done|]. split; [done|].
  split; intros; [by apply Back_blocks|by apply Back_cancelled].
Qed.

(** ** Concurrent calls of [Next] *)

Lemma next_step_stuck db pc :
  next_step db pc = None →
  finished pc ∨ ∃ nx, pc = AtSend nx ∧ prev db ≠ [].
Proof.
  destruct pc as [|nx|nx|nx| |]; simpl; try done; try by left.
  - destruct (prev db); simpl; [done|]. intros _. right. by exists nx.
  - by destruct (deref (front db) db).
Qed.

Lemma remaining_replicate n :
  sum_list_with remaining (replicate n (@AtSwap T)) = (4 * n)%nat.
Proof. induction n as [|n IH]; simpl in *; lia. Qed.

Lemma next_step_remaining db pc db' pc' :
  next_step db pc = Some (db', pc') → (remaining pc' < remaining pc)%nat.
Proof.
  destruct pc as [|nx|nx|nx| |]; simpl; try done.
  - intros [= <- <-]. destruct (next db); simpl; lia.
  - destruct (decide _); [|done]. intros [= <- <-]. simpl. lia.
  - intros [= <- <-]. simpl. lia.
  - destruct (deref (front db) db); intros [= <- <-]; simpl; lia.
Qed.

Lemma nstep_any_measure σ σ' :
  nstep_any σ σ' →
  length σ'.2 = length σ.2 ∧
  (sum_list_with remaining σ'.2 < sum_list_with remaining σ.2)%nat.
Proof.
  intros (i & pc1 & Hs). destruct Hs as [db pcs i pc db' pc' Hi Hstep]. simpl.
  split; [by rewrite length_insert|].
  pose proof (sum_list_with_insert remaining pcs i pc pc' Hi).
  pose proof (next_step_remaining _ _ _ _ Hstep). lia.
Qed.

Lemma race_inv_init db0 x y n :
  next db0 = Some x → front db0 = Some y → prev db0 = [] →
  race_inv db0 x y (db0, replicate n AtSwap).
Proof.
  intros Hn Hf Hp. split; [done|]. split; [done|]. left. simpl.
  split_and!; try done. by apply Forall_replicate.
Qed.

Lemma race_inv_nstep db0 x y σ σ' :
  race_inv db0 x y σ → nstep_any σ σ' → race_inv db0 x y σ'.
Proof.
  intros (Ha & Hb & Hph) (i & pc1 & Hs).
  destruct Hs as [db pcs i pc db' pc' Hi Hstep]. simpl in *.
  assert (∀ s, load s db = load s db0) as Hload by (by intros []).
  destruct Hph as [(Hn & Hf & Hp & Hall)|(Hn & w & pw & Hw & Hwin & Hlose)].
  - (* nobody has swapped yet: goroutine [i] takes the submission *)
    rewrite (proj1 (Forall_lookup _ _) Hall i pc Hi) in Hstep.
    simpl in Hstep. rewrite Hn in Hstep. simpl in Hstep.
    injection Hstep as <- <-. split; [done|]. split; [done|]. right. simpl.
    split; [done|]. exists i, (AtSend (Some x)).
    split; [apply list_lookup_insert_eq; by eapply lookup_lt_Some|].
    split; [done|]. intros j pc' Hj Hpc'.
    rewrite list_lookup_insert_ne in Hpc' by done.
    by rewrite (proj1 (Forall_lookup _ _) Hall j pc' Hpc').
  - destruct (decide (i = w)) as [->|Hiw].
    + (* the winner moves on *)
      assert (pw = pc) as -> by congruence.
      assert (a db' = a db0 ∧ b db' = b db0 ∧ next db' = None ∧
              winner_pc x y (load x db0) db' pc') as (Ha' & Hb' & Hn' & Hwin').
      { destruct pc as [|nx|nx|nx| |]; simpl in Hwin, Hstep; try done.
        - destruct Hwin as (-> & Hf & Hp). rewrite Hp in Hstep.
          simpl in Hstep. injection Hstep as <- <-. simpl. by rewrite Hf.
        - destruct Hwin as (-> & Hf & Hp). by injection Hstep as <- <-.
        - destruct Hwin as (-> & Hf & Hp). rewrite Hf in Hstep.
          simpl in Hstep. injection Hstep as <- <-. simpl.
          by rewrite Hload. }
      split; [done|]. split; [done|]. right. simpl. split; [done|].
      exists w, pc'.
      split; [apply list_lookup_insert_eq; by eapply lookup_lt_Some|].
      split; [done|]. intros j pc'' Hj Hpc''.
      rewrite list_lookup_insert_ne in Hpc'' by done. by eapply Hlose.
    + (* a loser moves on *)
      pose proof (Hlose i pc Hiw Hi) as Hl.
      assert (a db' = a db0 ∧ b db' = b db0 ∧ next db' = None ∧
              front db' = front db ∧ prev db' = prev db ∧
              loser_pc (load x db0) (load y db0) pc')
        as (Ha' & Hb' & Hn' & Hf' & Hp' & Hl').
      { destruct pc as [|nx|nx|nx| |]; simpl in Hl, Hstep; try done.
        - rewrite Hn in Hstep. simpl in Hstep. by injection Hstep as <- <-.
        - subst nx.
          assert (front db = Some x ∨ front db = Some y) as [Hf|Hf]
            by (destruct pw; simpl in Hwin; tauto).
          + rewrite Hf in Hstep. simpl in Hstep. injection Hstep as <- <-.
            simpl. rewrite Hload. by eauto 10.
          + rewrite Hf in Hstep. simpl in Hstep. injection Hstep as <- <-.
            simpl. rewrite Hload. by eauto 10. }
      split; [done|]. split; [done|]. right. simpl. split; [done|].
      exists w, pw. split; [by rewrite list_lookup_insert_ne|].
      split.
      { destruct pw; simpl in *; try done; by rewrite Hf', Hp'. }
      intros j pc'' Hj Hpc''.
      destruct (decide (j = i)) as [->|Hji].
      * rewrite list_lookup_insert_eq in Hpc'' by (by eapply lookup_lt_Some).
        by injection Hpc'' as <-.
      * rewrite list_lookup_insert_ne in Hpc'' by done. by eapply Hlose.
Qed.

Lemma race_nsteps db0 x y k σ σ' :
  race_inv db0 x y σ → nsteps nstep_any k σ σ' →
  race_inv db0 x y σ' ∧ length σ'.2 = length σ.2 ∧
  (k + sum_list_with remaining σ'.2 ≤ sum_list_with remaining σ.2)%nat.
Proof.
  intros Hinv Hk. induction Hk as [σ|k σ σ1 σ' Hs _ IH].
  { split; [done|]. split; [done|]. lia. }
  destruct (IH (race_inv_nstep _ _ _ _ _ Hinv Hs)) as (IH1 & IH2 & IH3).
  destruct (nstep_any_measure _ _ Hs) as [Hlen Hlt].
  split; [done|]. split; [congruence|]. lia.
Qed.

(** C8, amended. [n > 0] goroutines call [Next] on a buffer with the
    submission [x] in the cell, [y] front and the channel empty, and take
    their steps in any order. After [k] steps: [k] is at most [4 n]; every
    goroutine that has not returned can take its next step, so none waits
    for another; and when all have returned, one of them has returned the
    value of [x] with [changed = true], and each of the others has returned
    [changed = false] with the value that was front when it read it: the
    value of [x], or the value of [y] if it read before line 75 of the
    winner. *)
Theorem Next_single_winner db0 x y n k σ :
  next db0 = Some x → front db0 = Some y → prev db0 = [] → (0 < n)%nat →
  nsteps nstep_any k (db0, replicate n AtSwap) σ →
  (k ≤ 4 * n)%nat ∧
  (∀ i pc, σ.2 !! i = Some pc → ¬ finished pc → ∃ pc' σ', nstep σ i pc' σ') ∧
  (Forall finished σ.2 →
   ∃ w, (w < n)%nat ∧
     σ.2 !! w = Some (Returned (load x db0) true) ∧
     ∀ j, (j < n)%nat → j ≠ w →
       ∃ v, σ.2 !! j = Some (Returned v false) ∧
            (v = load x db0 ∨ v = load y db0)).
Proof.
  intros Hn Hf Hp Hpos Hk.
  destruct (race_nsteps db0 x y k _ σ (race_inv_init db0 x y n Hn Hf Hp) Hk)
    as (Hinv & Hlen & Hm).
  simpl in Hlen, Hm. rewrite length_replicate in Hlen.
  rewrite remaining_replicate in Hm.
  destruct σ as [db pcs]. simpl in *.
  destruct Hinv as (Ha & Hb & Hph). simpl in *.
  split; [lia|]. split.
  - intros i pc Hi Hnf.
    destruct (next_step db pc) as [[db' pc']|] eqn:Hstep.
    { exists pc', (db', <[i:=pc']> pcs). by apply nstep_thread with pc. }
    exfalso. apply next_step_stuck in Hstep as [?|(nx & -> & Hfull)]; [done|].
    destruct Hph as [(_ & _ & _ & Hall)|(_ & w & pw & Hw & Hwin & Hlose)].
    + by pose proof (proj1 (Forall_lookup _ _) Hall i _ Hi).
    + destruct (decide (i = w)) as [->|Hiw].
      * assert (pw = AtSend nx) as -> by congruence. simpl in Hwin.
        by destruct Hwin as (_ & _ & ?).
      * by pose proof (Hlose i _ Hiw Hi).
  - intros Hfin.
    destruct Hph as [(_ & _ & _ & Hall)|(_ & w & pw & Hw & Hwin & Hlose)].
    + exfalso. destruct pcs as [|pc pcs]; simpl in Hlen; [lia|].
      apply Forall_cons in Hall as [-> _]. by apply Forall_cons in Hfin as [? _].
    + exists w. split; [rewrite <- Hlen; by eapply lookup_lt_Some|].
      pose proof (proj1 (Forall_lookup _ _) Hfin w pw Hw) as Hfw.
      split.
      { destruct pw; simpl in Hwin, Hfw; try done.
        by destruct Hwin as (-> & -> & _). }
      intros j Hj Hjw.
      destruct (lookup_lt_is_Some_2 pcs j) as [pc Hpc]; [lia|].
      pose proof (proj1 (Forall_lookup _ _) Hfin j pc Hpc) as Hfj.
      pose proof (Hlose j pc Hjw Hpc) as Hl.
      destruct pc as [| | | |v changed|]; simpl in Hl, Hfj; try done.
      destruct Hl as [-> Hv]. by exists v.
Qed.

End Concurrent.

(** * Further properties of the calls *)

Section Calls.

Context {T : Type}.
Implicit Types (db : DoubleBuffer T) (c : Call T) (cs : list (Call T)).
Implicit Types (s x y : Slot) (p : Ptr) (ctx : Context) (sel : Select).

Lemma set_next_same db : next db = None → set_next None db = db.
Proof. destruct db. simpl. by intros ->. Qed.

Lemma rotating_held db :
  rotating db ↔ ∃ x y, x ≠ y ∧ front db = Some y ∧ held x db.
Proof. done. Qed.

(** ** What a call of [Next] that returns has done *)

(** X1. When [Next] returns [(t, changed)]: [changed] tells whether the cell
    held a pointer; [t] is what [Front] returns afterwards; the values of the
    slots and [back] are untouched and the cell is empty. With
    [changed = false] the state is the one before the call. With
    [changed = true] the channel was empty before the call, the pointer of
    the cell is the new [front], and the old [front] is the one element of
    the channel. *)
Theorem Next_spec db t changed db' :
  Next db = (Returns (t, changed), db') →
  changed = non_nil (next db) ∧ Front db' = Returns t ∧
  a db' = a db ∧ b db' = b db ∧ back db' = back db ∧ next db' = None ∧
  if changed
  then prev db = [] ∧ front db' = next db ∧ prev db' = [front db]
  else db' = db.
Proof.
  unfold Next, Next_return, Front.
  destruct (next db) as [x|] eqn:Hn; simpl.
  - destruct (prev db) as [|p q] eqn:Hp; simpl; [|done].
    by intros [= <- <- <-].
  - destruct (front db) as [y|] eqn:Hf; simpl; [|done].
    intros [= <- <- <-]. simpl. rewrite Hf. simpl.
    split_and!; try done. by apply set_next_same.
Qed.

(** ** What a call of [Back] has done *)

(** The outcomes of [Back] on a context that is not nil, read backwards. *)
Lemma Back_cases ctx sel db :
  match (Back ctx sel db).1 with
  | Returns (p, Some e) =>
      ctx = Some e ∧ back db = None ∧ p = None ∧ (Back ctx sel db).2 = db
  | Returns (p, None) =>
      back (Back ctx sel db).2 = p ∧
      ((back db = p ∧ p ≠ None ∧ (Back ctx sel db).2 = db) ∨
       (back db = None ∧ ∃ q, prev db = p :: q ∧
          (Back ctx sel db).2 = set_back p (set_prev q db)))
  | Blocks =>
      ctx = None ∧ back db = None ∧ prev db = [] ∧ (Back ctx sel db).2 = db
  | Panics => False
  end.
Proof.
  unfold Back, recv_prev.
  destruct (back db) as [s|] eqn:Hb; simpl; [by eauto|].
  destruct ctx as [e|], (prev db) as [|p q] eqn:Hp; simpl; try done.
  - destruct sel; simpl; [done|]. split; [done|]. right. by eauto.
  - split; [done|]. right. by eauto.
Qed.

(** X3. In a reachable state, a call of [Back] that returns a nil error
    returns a pointer that is not nil, to the slot that is [back] after the
    call and is not [front]; a write through that pointer does not change
    what [Front] returns. *)
Theorem Back_slot_is_private db ctx sel p db' :
  reachable db → Back ctx sel db = (Returns (p, None), db') →
  ∃ s, p = Some s ∧ back db' = Some s ∧ front db' ≠ Some s ∧
       ∀ v, Front (store s v db') = Front db'.
Proof.
  intros Hr HB. apply reachable_rotating in Hr.
  pose proof (rotating_Back ctx sel db Hr) as Hr'.
  pose proof (Back_cases ctx sel db) as Hs. rewrite HB in Hs, Hr'.
  simpl in Hs, Hr'. destruct Hs as [Hbp Hcase].
  destruct Hr' as (x & y & Hxy & Hf & Hheld).
  assert (p ≠ None) as Hp.
  { destruct Hcase as [(_ & ? & _)|(Hb & q & Hq & _)]; [done|].
    destruct Hr as (x0 & y0 & _ & _ & [(?&_)|[(_&_&?)|(_&_&?)]]); congruence. }
  destruct p as [s|]; [|done]. exists s.
  destruct Hheld as [(Hb & _)|[(Hb & _)|(Hb & _)]]; try congruence.
  assert (x = s) as -> by congruence.
  split_and!; [done|done|congruence|].
  intros v. unfold Front. replace (front (store s v db')) with (front db')
    by (by destruct s).
  rewrite Hf. simpl. f_equal. destruct s, y; done.
Qed.

(** ** A full turn *)

(** X4. In a reachable state where the producer holds the slot [x] and [y]
    is front, [Ready], [Next], [Back] in a row exchange the two roles and
    change nothing else: [Next] returns the value of [x] with
    [changed = true], [Back] returns [y]. A second turn gives back the state
    before the first. *)
Theorem rotate_swaps_roles db x y sel sel' :
  reachable db → back db = Some x → front db = Some y →
  Next (Ready db) = (Returns (load x db, true), (Next (Ready db)).2) ∧
  Back Background sel (Next (Ready db)).2 =
    (Returns (Some y, None), rotate sel db) ∧
  rotate sel db = set_back (Some y) (set_front (Some x) db) ∧
  rotate sel' (rotate sel db) = db.
Proof.
  intros Hr Hb Hf. apply reachable_rotating in Hr.
  destruct Hr as (x0 & y0 & _ & _ & [(_ & Hn & Hp)|[(?&_)|(?&_)]]);
    [|congruence|congruence].
  destruct db as [a0 b0 bk fr nx pv]. simpl in *. subst.
  unfold rotate. by destruct x, sel, sel'.
Qed.

(** ** Feeder and eater taking turns *)

Lemma feed_eat_rotating sel vs db :
  rotating db → next db = None →
  ∃ db', feed_eat Background sel vs db = Some ((λ v, (v, true)) <$> vs, db') ∧
    rotating db' ∧ next db' = None ∧
    Front db' = match last vs with Some v => Returns v | None => Front db end.
Proof.
  revert db. induction vs as [|v vs IH]; intros db Hr Hn.
  { exists db. by simpl. }
  assert (∃ x db1, Back Background sel db = (Returns (Some x, None), db1) ∧
            back db1 = Some x ∧ prev db1 = [] ∧ rotating db1) as
    (x & db1 & HB & Hb1 & Hp1 & Hr1).
  { pose proof (rotating_Back Background sel db Hr) as Hr1.
    destruct Hr as (x & y & Hxy & Hf & [(Hb & _ & Hp)|[(_ & ? & _)|(Hb & _ & Hp)]]);
      [|congruence|].
    - exists x, db. by rewrite (Back_writable _ x) in * by done.
    - rewrite (Back_reclaims _ (Some x) []) in * by done. by eauto 10. }
  set (db2 := Ready (store x v db1)).
  assert (next db2 = Some x ∧ prev db2 = [] ∧ load x db2 = v ∧
          rotating db2) as (Hn2 & Hp2 & Hv2 & Hr2).
  { assert (back (store x v db1) = Some x) as Hb by (by destruct x).
    subst db2. rewrite (Ready_writable _ x) by done. simpl.
    split_and!; try by destruct x.
    rewrite <- (Ready_writable _ x) by done.
    by apply rotating_Ready, rotating_store. }
  pose proof (rotating_Next db2 Hr2) as Hr3.
  rewrite (Next_adopts _ x) in Hr3 by done. simpl in Hr3.
  destruct (IH _ Hr3 eq_refl) as (db' & Hfe & Hr' & Hn' & Hfr').
  exists db'. simpl. unfold publish. rewrite HB. fold db2.
  rewrite (Next_adopts _ x) by done. rewrite Hfe, Hv2.
  split_and!; try done.
  rewrite Hfr', last_cons. destruct (last vs); [done|].
  unfold Front. simpl. rewrite <- Hv2. by destruct x.
Qed.

(** X5. From a reachable state with nothing in the cell, the feeder and
    the eater of the benchmark taking turns never block: for every list of
    values, each round of the feeder gets a slot, each call of [Next] returns
    the value of that round with [changed = true], in the order of the list,
    and at the end [Front] returns the last value. *)
Theorem feed_eat_delivers_all db sel vs :
  reachable db → next db = None →
  ∃ db',
    feed_eat Background sel vs db = Some ((λ v, (v, true)) <$> vs, db') ∧
    next db' = None ∧
    Front db' = match last vs with Some v => Returns v | None => Front db end.
Proof.
  intros Hr Hn. apply reachable_rotating in Hr.
  destruct (feed_eat_rotating sel vs db Hr Hn) as (db' & ? & _ & ? & ?).
  by exists db'.
Qed.

(** ** One call of [Next] is enough for the producer *)

(** X12. In every reachable state, after one call of [Next] a call of [Back]
    with a context that is not done does not block: it returns a slot with a
    nil error, and that slot is not [front]. *)
Theorem Next_unblocks_Back db sel :
  reachable db →
  ∃ s db', Back Background sel (Next db).2 = (Returns (Some s, None), db') ∧
           back db' = Some s ∧ front db' ≠ Some s.
Proof.
  intros Hr. apply reachable_rotating in Hr.
  destruct Hr as (x & y & Hxy & Hf & [(Hb & Hn & Hp)|[(Hb & Hn & Hp)|(Hb & Hn & Hp)]]).
  - rewrite (Next_idle _ y) by done. simpl.
    rewrite (Back_writable _ x) by done. exists x, db.
    split_and!; [done|done|congruence].
  - rewrite (Next_adopts _ x) by done. simpl.
    erewrite Back_reclaims by done. rewrite Hf. exists y. eexists.
    split_and!; [done|done|simpl; congruence].
  - rewrite (Next_idle _ y) by done. simpl.
    erewrite Back_reclaims by done. exists x. eexists.
    split_and!; [done|done|simpl; congruence].
Qed.

(** ** Counting *)

Lemma next_exec c db :
  holds (next (exec c db).2) =
    match c with
    | CReady => match back db with Some _ => 1%nat | None => holds (next db) end
    | CNext => 0%nat
    | _ => holds (next db)
    end.
Proof.
  rewrite exec_state. destruct c as [ctx sel| | | |p v]; simpl; try done.
  - unfold Back. by destruct (back db), ctx, (prev db), sel.
  - unfold Ready. by destruct (back db).
  - unfold Next, Next_return. destruct (next db); simpl.
    + destruct (decide _); simpl; [|done]. by destruct s.
    + by destruct (front db) as [[]|].
  - by destruct p as [[]|].
Qed.

(** X6. In every run of calls, from any state, the number of calls of
    [Next] that return [changed = true] is at most the number of calls of
    [Ready], plus one if the cell held a pointer at the start: no submission
    is adopted twice. *)
Theorem changed_at_most_once_per_Ready cs db :
  (length (filter (λ r, is_changed r = true) (run cs db).1)
   ≤ length (filter (λ c, is_Ready c = true) cs) + holds (next db))%nat.
Proof.
  revert db. induction cs as [|c cs IH]; intros db; [simpl; lia|].
  rewrite run_cons. simpl. specialize (IH (exec c db).2).
  rewrite next_exec in IH.
  rewrite !filter_cons.
  assert (is_changed (exec c db).1 = true → c = CNext ∧ holds (next db) = 1%nat)
    as Hch.
  { destruct c as [ctx sel| | | |p v]; simpl.
    - by destruct (Back ctx sel db).
    - done.
    - done.
    - intros H. split; [done|]. revert H. unfold Next, Next_return.
      destruct (next db); simpl; [done|]. by destruct (front db) as [[]|].
    - by destruct (Store p v db). }
  destruct (decide (is_changed (exec c db).1 = true)) as [Hc|Hc].
  - destruct (Hch Hc) as [-> H1]. simpl in *. lia.
  - destruct c as [ctx sel| | | |p v]; simpl in *;
      try destruct (back db); simpl in *; lia.
Qed.

End Calls.

(** * Further properties of the interleavings *)

Section Interleavings.

Context {T : Type}.
Implicit Types (db : DoubleBuffer T) (c : Call T) (pc : NextPC T).
Implicit Types (pcs : list (NextPC T)) (σ : Pool T) (ev : Event T).
Implicit Types (s x y : Slot) (p : Ptr) (ctx : Context) (sel : Select).

(** ** The cell is empty while the producer holds a slot *)

(** X7. In every state the buffer and the goroutines reach from [New],
    whatever the interleaving, when [back] is not nil the cell is empty, the
    channel is empty and no goroutine stands before the send of line 74: the
    store of [Ready] never replaces a submission that no call of [Next] has
    taken. *)
Theorem Ready_never_overwrites (a0 b0 : T) tr db pcs :
  trace (New a0 b0, []) tr (db, pcs) →
  back db ≠ None →
  next db = None ∧ prev db = [] ∧ Forall (λ pc, sending pc = 0%nat) pcs.
Proof.
  intros Htr Hb. apply pool_inv_trace in Htr; [|apply pool_inv_New].
  destruct Htr as (Ht & _ & _ & _). unfold tokens in Ht. simpl in Ht.
  destruct (back db) as [s|]; [|done]. simpl in Ht. split_and!.
  - destruct (next db); [simpl in Ht; lia|done].
  - apply nil_length_inv. lia.
  - apply Forall_lookup. intros i pc Hi. apply sending_lookup in Hi. lia.
Qed.

(** ** No call of [Next] or [Front] fails *)

Lemma no_panic_pstep σ ev σ' :
  pool_inv σ → Forall (λ pc, pc ≠ Panicked) σ.2 → pstep σ ev σ' →
  Forall (λ pc, pc ≠ Panicked) σ'.2.
Proof.
  intros Hinv Hnp Hs.
  destruct Hs as [c db pcs r db' Hc He _|db pcs|σ0 i pc' σ0' Hs]; simpl in *.
  - done.
  - apply Forall_app. split; [done|]. by apply Forall_singleton.
  - destruct Hs as [db pcs i pc db' pc' Hi Hstep]. simpl in *.
    apply Forall_insert; [done|].
    destruct Hinv as (_ & Hf & _ & _). simpl in Hf.
    destruct pc as [|nx|nx|nx| |]; simpl in Hstep; try done.
    + injection Hstep as <- <-. by destruct (next db).
    + destruct (decide _); [|done]. by injection Hstep as <- <-.
    + by injection Hstep as <- <-.
    + destruct (front db) as [y|]; [|done]. simpl in Hstep.
      by injection Hstep as <- <-.
Qed.

Lemma no_panic_trace σ tr σ' :
  pool_inv σ → Forall (λ pc, pc ≠ Panicked) σ.2 → trace σ tr σ' →
  pool_inv σ' ∧ Forall (λ pc, pc ≠ Panicked) σ'.2.
Proof.
  intros Hinv Hnp Htr.
  induction Htr as [|σ ev σ' tr σ'' Hs _ IH]; [done|].
  apply IH; [by eapply pool_inv_pstep|by eapply no_panic_pstep].
Qed.

(** X8. In every state the buffer and the goroutines reach from [New],
    whatever the interleaving: [front] is not nil, so [Front] returns a
    value; a call of [Next] run from there returns; no goroutine has
    panicked inside [Next]; and every goroutine that has not returned from
    [Next] can take its next step, whatever the others do. *)
Theorem Next_and_Front_never_fail (a0 b0 : T) tr db pcs :
  trace (New a0 b0, []) tr (db, pcs) →
  (∃ t, Front db = Returns t) ∧
  (∃ t changed, (Next db).1 = Returns (t, changed)) ∧
  Forall (λ pc, pc ≠ Panicked) pcs ∧
  (∀ i pc, pcs !! i = Some pc → ¬ finished pc →
     ∃ pc' σ', nstep (db, pcs) i pc' σ').
Proof.
  intros Htr.
  apply no_panic_trace in Htr as [Hinv Hnp]; [|apply pool_inv_New|done].
  destruct Hinv as (Ht & Hf & _ & _). unfold tokens in Ht. simpl in *.
  destruct (front db) as [y|] eqn:Hy; [|done].
  split_and!; [| |done|].
  - exists (load y db). unfold Front. by rewrite Hy.
  - unfold Next, Next_return. destruct (next db) as [x|] eqn:Hn; simpl.
    + simpl in Ht. assert (prev db = []) as -> by (apply nil_length_inv; lia).
      simpl. by eauto.
    + rewrite Hy. simpl. by eauto.
  - intros i pc Hi Hnf.
    destruct (next_step db pc) as [[db' pc']|] eqn:Hstep.
    { exists pc', (db', <[i:=pc']> pcs). by apply nstep_thread with pc. }
    exfalso. apply next_step_stuck in Hstep as [?|(nx & -> & Hfull)]; [done|].
    apply sending_lookup in Hi. simpl in Hi.
    apply Hfull, nil_length_inv. lia.
Qed.

(** ** The values of the slots *)

Lemma values_exec c db :
  (∀ p v, c ≠ CStore p v) →
  a (exec c db).2 = a db ∧ b (exec c db).2 = b db.
Proof.
  intros Hc. rewrite exec_state. destruct c as [ctx sel| | | |p v]; simpl.
  - unfold Back. by destruct (back db), ctx, (prev db), sel.
  - unfold Ready. by destruct (back db).
  - done.
  - unfold Next, Next_return. destruct (next db) as [x|]; simpl.
    + destruct (decide _); simpl; [|done]. by destruct x.
    + by destruct (front db) as [[]|].
  - by destruct (Hc p v).
Qed.

Lemma values_next_step db pc db' pc' :
  next_step db pc = Some (db', pc') → a db' = a db ∧ b db' = b db.
Proof.
  destruct pc as [|nx|nx|nx| |]; simpl; try done.
  - by intros [= <- <-].
  - destruct (decide _); [|done]. by intros [= <- <-].
  - by intros [= <- <-].
  - destruct (deref (front db) db); by intros [= <- <-].
Qed.

(** X9. Along every interleaving in which nobody writes to a slot, the two
    values are the ones at the start: [Back], [Ready], [Front] and every
    step of [Next] move pointers and never write, copy or exchange the
    values the slots hold. *)
Theorem only_writes_change_values σ tr σ' :
  trace σ tr σ' → Forall (λ ev, ¬ is_write ev) tr →
  a σ'.1 = a σ.1 ∧ b σ'.1 = b σ.1.
Proof.
  intros Htr. induction Htr as [|σ ev σ1 tr σ' Hs _ IH]; [done|].
  intros Hnw. apply Forall_cons in Hnw as [Hev Hnw].
  destruct (IH Hnw) as [-> ->]. clear IH Hnw.
  destruct Hs as [c db pcs r db' Hc He _|db pcs|σ0 i pc' σ0' Hs]; simpl.
  - pose proof (values_exec c db) as H. rewrite He in H. apply H.
    intros p v ->. apply Hev. by exists p, v, r.
  - done.
  - destruct Hs as [db pcs i pc db' pc' Hi Hstep]. simpl.
    by eapply values_next_step.
Qed.

(** ** One consumer at a time *)

Lemma held_call c db x :
  held x db → c ≠ CNext →
  held x (exec c db).2 ∧ front (exec c db).2 = front db.
Proof.
  intros Hh Hc. rewrite exec_state.
  destruct c as [ctx sel| | | |p v]; simpl; try done.
  - unfold Back, held in *.
    destruct Hh as [(Hb & Hn & Hp)|[(Hb & Hn & Hp)|(Hb & Hn & Hp)]];
      rewrite Hb, ?Hp; destruct ctx, sel; simpl; by eauto 10.
  - unfold Ready, held in *.
    destruct Hh as [(Hb & Hn & Hp)|[(Hb & Hn & Hp)|(Hb & Hn & Hp)]];
      rewrite Hb; simpl; by eauto 10.
  - destruct p as [[]|]; simpl; done.
Qed.

Lemma nothing_held_call c db :
  back db = None → next db = None → prev db = [] → c ≠ CNext →
  back (exec c db).2 = None ∧ next (exec c db).2 = None ∧
  prev (exec c db).2 = [] ∧ front (exec c db).2 = front db.
Proof.
  intros Hb Hn Hp Hc. rewrite exec_state.
  destruct c as [ctx sel| | | |p v]; simpl; try done.
  - unfold Back. rewrite Hb, Hp. by destruct ctx.
  - by rewrite Ready_submitted.
  - destruct p as [[]|]; simpl; done.
Qed.

Lemma next_step_unfinished db pc db' pc' :
  next_step db pc = Some (db', pc') → ¬ finished pc.
Proof. destruct pc; simpl; intros H F; done. Qed.

Lemma mid_unfinished pc : mid pc → ¬ finished pc.
Proof. destruct pc; simpl; intros H F; done. Qed.

Lemma solo_inv_New (a0 b0 : T) : solo_inv (New a0 b0, []).
Proof.
  split; [by intros i j pc pc' Hi|].
  exists SlotA, SlotB. split; [done|]. split; [done|]. left.
  split; [done|]. by left.
Qed.

Lemma solo_inv_pstep σ ev σ' :
  solo_inv σ → pstep σ ev σ' → (ev = EvGo → Forall finished σ.2) →
  solo_inv σ'.
Proof.
  intros [Huniq (x & y & Hxy & Hf & Hph)] Hs Hgo.
  destruct Hs as [c db pcs r db' Hc He _|db pcs|σ0 i pc' σ0' Hs]; simpl in *.
  - (* a call of the producer, or Front *)
    split; [done|]. exists x, y. split; [done|].
    assert (db' = (exec c db).2) as -> by (by rewrite He). simpl.
    destruct Hph as [(Hq & Hh)|[(Hi & Hb & Hn & Hp)|(Hi & Hh)]].
    + destruct (held_call c db x Hh Hc) as [Hh' ->]. by eauto.
    + destruct (nothing_held_call c db Hb Hn Hp Hc) as (? & ? & ? & ->).
      split; [done|]. right. left. by eauto.
    + destruct (held_call c db y Hh Hc) as [Hh' ->]. by eauto.
  - (* a new call of Next: all earlier ones have returned *)
    specialize (Hgo eq_refl).
    assert (∀ i pc, (pcs ++ [AtSwap]) !! i = Some pc → ¬ finished pc →
              i = length pcs) as Hnew.
    { intros i pc Hi Hnf. apply lookup_snoc_Some in Hi as [[Hlt Hi]|[? _]];
        [|done].
      by pose proof (proj1 (Forall_lookup _ _) Hgo i pc Hi). }
    split.
    { intros i j pc pc' Hi Hj Hnf Hnf'.
      rewrite (Hnew i pc Hi Hnf), (Hnew j pc' Hj Hnf'). done. }
    exists x, y. split; [done|]. split; [done|].
    destruct Hph as [(Hq & Hh)|[((i & Hi) & _)|((i & Hi) & _)]].
    + left. split; [|done]. apply Forall_app. split; [done|].
      apply Forall_singleton. simpl. tauto.
    + by pose proof (proj1 (Forall_lookup _ _) Hgo i _ Hi).
    + by pose proof (proj1 (Forall_lookup _ _) Hgo i _ Hi).
  - (* a step inside Next *)
    destruct Hs as [db pcs i pc db' pc' Hi Hstep]. simpl in *.
    pose proof (next_step_unfinished _ _ _ _ Hstep) as Hnf.
    assert (∀ j pcj, pcs !! j = Some pcj → ¬ finished pcj → j = i) as Honly.
    { intros j pcj Hj Hnfj. by eapply Huniq. }
    assert (∀ pcx, ¬ mid pcx → Forall (λ pc, ¬ mid pc) (<[i:=pcx]> pcs))
      as Hquiet.
    { intros pcx Hpcx. apply Forall_lookup. intros j pcj Hj.
      destruct (decide (j = i)) as [->|Hji].
      - rewrite list_lookup_insert_eq in Hj by (by eapply lookup_lt_Some).
        by injection Hj as <-.
      - rewrite list_lookup_insert_ne in Hj by done. intros Hm.
        apply Hji, (Honly j pcj Hj). by apply mid_unfinished. }
    assert (<[i:=pc']> pcs !! i = Some pc') as Hi'
      by (apply list_lookup_insert_eq; by eapply lookup_lt_Some).
    split.
    { intros j1 j2 pc1 pc2 H1 H2 Hn1 Hn2.
      assert (∀ j pcj, <[i:=pc']> pcs !! j = Some pcj → ¬ finished pcj → j = i)
        as Honly'.
      { intros j pcj Hj Hnfj. destruct (decide (j = i)) as [|Hji]; [done|].
        rewrite list_lookup_insert_ne in Hj by done. by eapply Honly. }
      by rewrite (Honly' j1 pc1 H1 Hn1), (Honly' j2 pc2 H2 Hn2). }
    destruct Hph as [(Hq & Hh)|[((i0 & Hi0) & Hb & Hn & Hp)|((i0 & Hi0) & Hh)]].
    + pose proof (proj1 (Forall_lookup _ _) Hq i pc Hi) as Hnm.
      destruct pc as [|nx|nx|nx| |]; simpl in Hstep, Hnm; try done.
      * injection Hstep as <- <-.
        destruct (next db) as [x'|] eqn:Hx'; simpl.
        -- exists x, y. split; [done|]. split; [done|]. right. left.
           destruct Hh as [(_ & ? & _)|[(Hb & Hn & Hp)|(_ & ? & _)]];
             try congruence.
           assert (x' = x) as -> by congruence. by eauto.
        -- exists x, y. split; [done|]. split; [done|]. left.
           split; [by apply Hquiet|]. by rewrite set_next_same.
      * assert (db' = db ∧ ¬ mid pc') as [-> Hm'].
        { destruct (deref (front db) db); by injection Hstep as <- <-. }
        exists x, y. split; [done|]. split; [done|]. left.
        split; [by apply Hquiet|done].
    + assert (i0 = i) as -> by (apply (Honly i0 _ Hi0); simpl; tauto).
      assert (pc = AtSend (Some x)) as -> by congruence.
      simpl in Hstep. rewrite Hp in Hstep. simpl in Hstep.
      injection Hstep as <- <-. simpl.
      exists x, y. split; [done|]. split; [done|]. right. right.
      split; [by eauto|]. right. right. simpl. by rewrite Hf.
    + assert (i0 = i) as -> by (apply (Honly i0 _ Hi0); simpl; tauto).
      assert (pc = AtAssign (Some x)) as -> by congruence.
      simpl in Hstep. injection Hstep as <- <-. simpl.
      exists y, x. split; [done|]. split; [done|]. left.
      split; [by apply Hquiet|done].
Qed.

Lemma solo_inv_trace σ tr σ' : solo_inv σ → solo_trace σ tr σ' → solo_inv σ'.
Proof.
  intros Hinv Htr. induction Htr as [|σ ev σ' tr σ'' Hs Hgo _ IH]; [done|].
  apply IH. by eapply solo_inv_pstep.
Qed.

(** X10. One goroutine at a time calls [Next], the producer and [Front] run
    in between and during its steps. In every state reached this way, when
    [back] is not nil and no goroutine stands between the send of line 74
    and the assignment of line 75, [back] and [front] are different slots;
    in particular they are whenever no call of [Next] is under way. *)
Theorem solo_alias_only_before_assign (a0 b0 : T) tr db pcs :
  solo_trace (New a0 b0, []) tr (db, pcs) →
  (∀ i nx, pcs !! i ≠ Some (AtAssign nx)) →
  back db ≠ None →
  front db ≠ back db.
Proof.
  intros Htr Hna Hb.
  apply solo_inv_trace in Htr; [|apply solo_inv_New].
  destruct Htr as [_ (x & y & Hxy & Hf & Hph)]. simpl in *.
  destruct Hph as [(_ & Hh)|[(_ & ? & _)|((i & Hi) & _)]].
  - destruct Hh as [(Hk & _)|[(Hk & _)|(Hk & _)]]; try congruence.
  - done.
  - by destruct (Hna i (Some x)).
Qed.

Lemma solo_trace_trace σ tr σ' : solo_trace σ tr σ' → trace σ tr σ'.
Proof.
  induction 1 as [|σ ev σ' tr σ'' Hs _ _ IH]; [apply trace_nil|].
  by eapply trace_cons.
Qed.

(** C5. The code does not keep [front] and [back] apart. One producer and
    one goroutine in [Next] are enough: after [New(a, b)] and [Ready], the
    goroutine runs the swap of line 72 and the send of line 74, which puts
    [db.front] into the channel while it is still front; [Back] then
    receives that pointer and returns it with a nil error before line 75
    has run. In this state [back] and [front] are both the slot [b], and a
    value written through the pointer [Back] returned is what [Front]
    returns. *)
Theorem Back_inside_Next_aliases_front (a0 b0 : T) :
  ∃ db,
    solo_trace (New a0 b0, [])
      [EvCall CReady RReady; EvGo; EvNext 0 (AtSend (Some SlotA));
       EvNext 0 (AtAssign (Some SlotA));
       EvCall (CBack Background PickRecv)
         (RBack (Returns (Some SlotB, None)))]
      (db, [AtAssign (Some SlotA)]) ∧
    back db = Some SlotB ∧ front db = Some SlotB ∧
    ∀ v, Front (store SlotB v db) = Returns v.
Proof.
  eexists. split.
  - eapply solo_cons; [by apply pstep_call|done|].
    eapply solo_cons; [apply pstep_go|by intros _; constructor|].
    eapply solo_cons;
      [apply pstep_next; by eapply (nstep_thread _ _ 0 AtSwap)|done|].
    eapply solo_cons;
      [apply pstep_next; by eapply (nstep_thread _ _ 0 (AtSend (Some SlotA)))
      |done|].
    eapply solo_cons;
      [apply pstep_call; [done|reflexivity|by unfold blocked]|done|].
    apply solo_nil.
  - done.
Qed.

(** ** Two consumers *)

(** X11. With two goroutines inside [Next] at the same time the roles can
    be lost for good. From [New(a, b)] there is an interleaving of the
    producer ([Ready], [Back], [Ready], [Back]) with two calls of [Next]
    after which both calls have returned, each with the value [b] and
    [changed = true], the cell and the channel are empty, and [back] and
    [front] are both the slot [b]: the second call sends the pointer that is
    front before the first call has assigned its own. *)
Theorem two_consumers_can_alias (a0 b0 : T) :
  ∃ tr db,
    trace (New a0 b0, []) tr (db, [Returned b0 true; Returned b0 true]) ∧
    back db = Some SlotB ∧ front db = Some SlotB ∧
    next db = None ∧ prev db = [] ∧ a db = a0 ∧ b db = b0.
Proof.
  eexists [EvCall CReady RReady; EvGo; EvGo;
           EvNext 0 (AtSend (Some SlotA)); EvNext 0 (AtAssign (Some SlotA));
           EvCall (CBack Background PickRecv)
             (RBack (Returns (Some SlotB, None)));
           EvCall CReady RReady;
           EvNext 1 (AtSend (Some SlotB)); EvNext 1 (AtAssign (Some SlotB));
           EvNext 0 (AtReturn (Some SlotA)); EvNext 1 (AtReturn (Some SlotB));
           EvNext 0 (Returned b0 true); EvNext 1 (Returned b0 true);
           EvCall (CBack Background PickRecv)
             (RBack (Returns (Some SlotB, None)))], _.
  split.
  - eapply trace_cons; [by apply pstep_call|].
    eapply trace_cons; [apply pstep_go|].
    eapply trace_cons; [apply pstep_go|].
    eapply trace_cons.
    { apply pstep_next. by eapply (nstep_thread _ _ 0 AtSwap). }
    eapply trace_cons.
    { apply pstep_next. by eapply (nstep_thread _ _ 0 (AtSend (Some SlotA))). }
    eapply trace_cons.
    { apply pstep_call; [done|reflexivity|]. by unfold blocked. }
    eapply trace_cons.
    { apply pstep_call; [done|reflexivity|]. by unfold blocked. }
    eapply trace_cons.
    { apply pstep_next. by eapply (nstep_thread _ _ 1 AtSwap). }
    eapply trace_cons.
    { apply pstep_next. by eapply (nstep_thread _ _ 1 (AtSend (Some SlotB))). }
    eapply trace_cons.
    { apply pstep_next.
      by eapply (nstep_thread _ _ 0 (AtAssign (Some SlotA))). }
    eapply trace_cons.
    { apply pstep_next.
      by eapply (nstep_thread _ _ 1 (AtAssign (Some SlotB))). }
    eapply trace_cons.
    { apply pstep_next.
      by eapply (nstep_thread _ _ 0 (AtReturn (Some SlotA))). }
    eapply trace_cons.
    { apply pstep_next.
      by eapply (nstep_thread _ _ 1 (AtReturn (Some SlotB))). }
    eapply trace_cons.
    { apply pstep_call; [done|reflexivity|]. by unfold blocked. }
    apply trace_nil.
  - done.
Qed.

End Interleavings.

(** ** Instances at [T = int] *)

Lemma Back_Ready_idempotent_witness :
  back (New 0 0) = Some SlotA ∧
  Forall (λ c : Call Z, is_Ready c = false)
    [CBack (Some Canceled) PickDone; CNext; CBack Background PickRecv] ∧
  back (run [CBack (Some Canceled) PickDone; CNext; CBack Background PickRecv]
          (New 0 0)).2 = Some SlotA.
Proof.
  split; [reflexivity|]. split; [by repeat constructor|].
  apply (proj1 (Back_Ready_idempotent (New 0 0)) SlotA); [reflexivity|].
  by repeat constructor.
Defined.

Lemma Back_writable_ignores_ctx_witness :
  back (New 0 0) ≠ None ∧
  Back (Some DeadlineExceeded) PickDone (New 0 0)
    = (Returns (back (New 0 0), None), New 0 0).
Proof.
  split; [discriminate|].
  apply (Back_writable_ignores_ctx (New 0 0)); discriminate.
Defined.

Lemma front_back_never_alias_witness :
  reachable (Ready (New 7 9)) ∧
  reachable (exec (CBack Background PickRecv)
               (exec CNext (Ready (New 7 9))).2).2 ∧
  front (exec (CBack Background PickRecv) (exec CNext (Ready (New 7 9))).2).2
    ≠ back (exec (CBack Background PickRecv)
               (exec CNext (Ready (New 7 9))).2).2.
Proof.
  assert (reachable (Ready (New 7 9))) as H1
    by exact (reachable_exec CReady _ (reachable_New 7 9)).
  assert (reachable (exec (CBack Background PickRecv)
                       (exec CNext (Ready (New 7 9))).2).2) as H2
    by exact (reachable_exec _ _ (reachable_exec CNext _ H1)).
  split; [exact H1|]. split; [exact H2|].
  apply (front_back_never_alias _ H2). discriminate.
Defined.

Lemma Back_cancel_then_retry_witness :
  reachable (Ready (New 7 9)) ∧
  back (Ready (New 7 9)) = None ∧
  prev (Ready (New 7 9)) = [] ∧
  Back (Some Canceled) PickRecv (Ready (New 7 9))
    = (Returns (None, Some Canceled), Ready (New 7 9)).
Proof.
  assert (reachable (Ready (New 7 9))) as H1
    by exact (reachable_exec CReady _ (reachable_New 7 9)).
  split; [exact H1|]. split; [reflexivity|]. split; [reflexivity|].
  apply (Back_cancel_then_retry (Ready (New 7 9)) Canceled PickRecv H1);
    reflexivity.
Defined.

(** A schedule of two goroutines on the buffer that holds the submission 1
    while 0 is front: goroutine 0 swaps, goroutine 1 swaps and returns,
    goroutine 0 sends, assigns and returns. *)
Lemma race_schedule :
  nsteps nstep_any 6
    (Ready (store SlotA 1 (New 0 0)), replicate 2 AtSwap)
    (mkDB 1 0 None (Some SlotA) None [Some SlotB],
     [Returned 1 true; Returned 0 false]).
Proof.
  eapply nsteps_l.
  { exists 0%nat, (AtSend (Some SlotA)).
    by eapply (nstep_thread _ _ 0 AtSwap). }
  eapply nsteps_l.
  { exists 1%nat, (AtReturn None). by eapply (nstep_thread _ _ 1 AtSwap). }
  eapply nsteps_l.
  { exists 1%nat, (Returned 0 false).
    by eapply (nstep_thread _ _ 1 (AtReturn None)). }
  eapply nsteps_l.
  { exists 0%nat, (AtAssign (Some SlotA)).
    by eapply (nstep_thread _ _ 0 (AtSend (Some SlotA))). }
  eapply nsteps_l.
  { exists 0%nat, (AtReturn (Some SlotA)).
    by eapply (nstep_thread _ _ 0 (AtAssign (Some SlotA))). }
  eapply nsteps_l.
  { exists 0%nat, (Returned 1 true).
    by eapply (nstep_thread _ _ 0 (AtReturn (Some SlotA))). }
  apply nsteps_O.
Qed.

(** C8 as it is stated fails: with two goroutines and the submission 1
    against the front value 0, not every interleaving ends with the loser
    holding the value the winner adopted. *)
Lemma loser_can_return_previous_front :
  ¬ ∀ σ : Pool Z,
      rtc nstep_any (Ready (store SlotA 1 (New 0 0)), replicate 2 AtSwap) σ →
      Forall finished σ.2 →
      ∃ w v, σ.2 !! w = Some (Returned v true) ∧
        ∀ j pc, j ≠ w → σ.2 !! j = Some pc → pc = Returned v false.
Proof.
  intros H.
  destruct (H _ (rtc_nsteps_2 _ _ _ race_schedule)) as (w & v & Hw & Hl).
  { by repeat constructor. }
  simpl in *. destruct w as [|[|w]]; simpl in Hw; try done.
  injection Hw as <-.
  by specialize (Hl 1%nat (Returned 0 false) ltac:(done) eq_refl).
Qed.

Lemma Next_single_winner_witness :
  next (Ready (store SlotA 1 (New 0 0))) = Some SlotA ∧
  front (Ready (store SlotA 1 (New 0 0))) = Some SlotB ∧
  prev (Ready (store SlotA 1 (New 0 0))) = [] ∧
  (0 < 2)%nat ∧
  nsteps nstep_any 6
    (Ready (store SlotA 1 (New 0 0)), replicate 2 AtSwap)
    (mkDB 1 0 None (Some SlotA) None [Some SlotB],
     [Returned 1 true; Returned 0 false]) ∧
  (6 ≤ 4 * 2)%nat.
Proof.
  split; [reflexivity|]. split; [reflexivity|]. split; [reflexivity|].
  split; [lia|]. split; [exact race_schedule|].
  apply (Next_single_winner (Ready (store SlotA 1 (New 0 0))) SlotA SlotB 2 6
           (mkDB 1 0 None (Some SlotA) None [Some SlotB],
            [Returned 1 true; Returned 0 false]));
    [reflexivity|reflexivity|reflexivity|lia|exact race_schedule].
Defined.

Lemma pending_taken_trace :
  trace (New 7 9, [])
    [EvCall CReady RReady; EvGo; EvNext 0 (AtSend (Some SlotA))]
    (mkDB 7 9 None (Some SlotB) None [], [AtSend (Some SlotA)]).
Proof.
  eapply trace_cons; [by apply pstep_call|].
  eapply trace_cons; [apply pstep_go|].
  eapply trace_cons.
  { apply pstep_next. by eapply (nstep_thread _ _ 0 AtSwap). }
  exact (trace_nil _).
Qed.

Lemma reclaim_channel_never_full_witness :
  trace (New 7 9, [])
    [EvCall CReady RReady; EvGo; EvNext 0 (AtSend (Some SlotA))]
    (mkDB 7 9 None (Some SlotB) None [], [AtSend (Some SlotA)]) ∧
  (length (prev (mkDB 7 9 None (Some SlotB) None [])) ≤ prev_cap)%nat.
Proof.
  split; [exact pending_taken_trace|].
  apply (reclaim_channel_never_full 7 9 _ _ _ pending_taken_trace).
Defined.

Lemma cancelled_Back_trace :
  trace (Ready (New 7 9), [])
    [EvGo;
     EvCall (CBack (Some Canceled) PickRecv)
       (RBack (Returns (None, Some Canceled)));
     EvCall CReady RReady]
    (Ready (New 7 9), [AtSwap]).
Proof.
  eapply trace_cons; [apply pstep_go|].
  eapply trace_cons.
  { apply pstep_call; [done|reflexivity|]. by unfold blocked. }
  eapply trace_cons.
  { apply pstep_call; [done|reflexivity|]. by unfold blocked. }
  exact (trace_nil _).
Qed.

Lemma cancelled_Back_trace_no_take :
  Forall (λ ev : Event Z, ¬ takes_pending ev)
    [EvGo;
     EvCall (CBack (Some Canceled) PickRecv)
       (RBack (Returns (None, Some Canceled)));
     EvCall CReady RReady].
Proof. repeat constructor; by intros (? & ? & ?). Qed.

Lemma Back_waits_for_Next_witness :
  trace (New 7 9, []) [] (New 7 9, []) ∧
  back (New 7 9) ≠ None ∧
  trace (Ready (New 7 9), [])
    [EvGo;
     EvCall (CBack (Some Canceled) PickRecv)
       (RBack (Returns (None, Some Canceled)));
     EvCall CReady RReady]
    (Ready (New 7 9), [AtSwap]) ∧
  Forall (λ ev : Event Z, ¬ takes_pending ev)
    [EvGo;
     EvCall (CBack (Some Canceled) PickRecv)
       (RBack (Returns (None, Some Canceled)));
     EvCall CReady RReady] ∧
  back (Ready (New 7 9)) = None.
Proof.
  split; [apply trace_nil|]. split; [discriminate|].
  split; [exact cancelled_Back_trace|].
  split; [exact cancelled_Back_trace_no_take|].
  apply (Back_waits_for_Next 7 9 [] (New 7 9) [] _ (Ready (New 7 9), [AtSwap])
           (trace_nil _) ltac:(discriminate)
           cancelled_Back_trace cancelled_Back_trace_no_take).
Defined.

(** Inside a call of [Next], between the send of line 74 and the assignment
    of line 75, the pointer in the channel is still [front]: a call of [Back]
    that runs there takes it, and [back] and [front] are the same slot until
    line 75 has run. *)
Lemma front_back_alias_inside_Next :
  ∃ σ : Pool Z,
    trace (New 0 0, [])
      [EvCall CReady RReady; EvGo; EvNext 0 (AtSend (Some SlotA));
       EvNext 0 (AtAssign (Some SlotA));
       EvCall (CBack Background PickRecv) (RBack (Returns (Some SlotB, None)))]
      σ ∧
    back σ.1 = Some SlotB ∧ front σ.1 = Some SlotB ∧
    σ.2 = [AtAssign (Some SlotA)].
Proof.
  eexists. split.
  - eapply trace_cons; [by apply pstep_call|].
    eapply trace_cons; [apply pstep_go|].
    eapply trace_cons.
    { apply pstep_next. by eapply (nstep_thread _ _ 0 AtSwap). }
    eapply trace_cons.
    { apply pstep_next. by eapply (nstep_thread _ _ 0 (AtSend (Some SlotA))). }
    eapply trace_cons.
    { apply pstep_call; [done|reflexivity|]. by unfold blocked. }
    apply trace_nil.
  - done.
Qed.

Lemma Next_spec_witness :
  Next (Ready (New 7 9))
    = (Returns (7, true), mkDB 7 9 None (Some SlotA) None [Some SlotB]) ∧
  true = non_nil (next (Ready (New 7 9))).
Proof.
  split; [reflexivity|].
  apply (Next_spec (Ready (New 7 9)) 7 true
           (mkDB 7 9 None (Some SlotA) None [Some SlotB]) eq_refl).
Defined.

Lemma Back_slot_is_private_witness :
  reachable (exec CNext (Ready (New 7 9))).2 ∧
  Back Background PickRecv (exec CNext (Ready (New 7 9))).2
    = (Returns (Some SlotB, None), mkDB 7 9 (Some SlotB) (Some SlotA) None []) ∧
  ∃ s, Some SlotB = Some s ∧
    back (mkDB 7 9 (Some SlotB) (Some SlotA) None []) = Some s ∧
    front (mkDB 7 9 (Some SlotB) (Some SlotA) None []) ≠ Some s ∧
    ∀ v, Front (store s v (mkDB 7 9 (Some SlotB) (Some SlotA) None []))
         = Front (mkDB 7 9 (Some SlotB) (Some SlotA) None []).
Proof.
  assert (reachable (exec CNext (Ready (New 7 9))).2) as H
    by exact (reachable_exec CNext _
                (reachable_exec CReady _ (reachable_New 7 9))).
  split; [exact H|]. split; [reflexivity|].
  exact (Back_slot_is_private _ Background PickRecv _ _ H eq_refl).
Defined.

Lemma rotate_swaps_roles_witness :
  reachable (New 7 9) ∧ back (New 7 9) = Some SlotA ∧
  front (New 7 9) = Some SlotB ∧
  rotate PickRecv (rotate PickDone (New 7 9)) = New 7 9.
Proof.
  split; [apply reachable_New|]. split; [reflexivity|]. split; [reflexivity|].
  apply (rotate_swaps_roles (New 7 9) SlotA SlotB PickDone PickRecv
           (reachable_New 7 9) eq_refl eq_refl).
Defined.

Lemma feed_eat_delivers_all_witness :
  reachable (New 7 9) ∧ next (New 7 9) = None ∧
  ∃ db',
    feed_eat Background PickRecv [1; 2; 3] (New 7 9)
      = Some ((λ v, (v, true)) <$> [1; 2; 3], db') ∧
    next db' = None ∧
    Front db' = match last [1; 2; 3] with
                | Some v => Returns v
                | None => Front (New 7 9)
                end.
Proof.
  split; [apply reachable_New|]. split; [reflexivity|].
  exact (feed_eat_delivers_all (New 7 9) PickRecv [1; 2; 3]
           (reachable_New 7 9) eq_refl).
Defined.

Lemma go_trace :
  trace (New 7 9, []) [EvGo] (New 7 9, [AtSwap]).
Proof. eapply trace_cons; [apply pstep_go|]. apply trace_nil. Qed.

Lemma Ready_never_overwrites_witness :
  trace (New 7 9, []) [EvGo] (New 7 9, [AtSwap]) ∧
  back (New 7 9) ≠ None ∧
  next (New 7 9) = None.
Proof.
  split; [exact go_trace|]. split; [discriminate|].
  apply (Ready_never_overwrites 7 9 _ _ _ go_trace). discriminate.
Defined.

Lemma Next_and_Front_never_fail_witness :
  trace (New 7 9, [])
    [EvCall CReady RReady; EvGo; EvNext 0 (AtSend (Some SlotA))]
    (mkDB 7 9 None (Some SlotB) None [], [AtSend (Some SlotA)]) ∧
  ∃ t, Front (mkDB 7 9 None (Some SlotB) None []) = Returns t.
Proof.
  split; [exact pending_taken_trace|].
  apply (Next_and_Front_never_fail 7 9 _ _ _ pending_taken_trace).
Defined.

Lemma pending_taken_trace_no_write :
  Forall (λ ev : Event Z, ¬ is_write ev)
    [EvCall CReady RReady; EvGo; EvNext 0 (AtSend (Some SlotA))].
Proof. repeat constructor; by intros (? & ? & ? & ?). Qed.

Lemma only_writes_change_values_witness :
  trace (New 7 9, [])
    [EvCall CReady RReady; EvGo; EvNext 0 (AtSend (Some SlotA))]
    (mkDB 7 9 None (Some SlotB) None [], [AtSend (Some SlotA)]) ∧
  Forall (λ ev : Event Z, ¬ is_write ev)
    [EvCall CReady RReady; EvGo; EvNext 0 (AtSend (Some SlotA))] ∧
  a (mkDB 7 9 None (Some SlotB) None []) = a (New 7 9).
Proof.
  split; [exact pending_taken_trace|].
  split; [exact pending_taken_trace_no_write|].
  apply (only_writes_change_values _ _ _ pending_taken_trace
           pending_taken_trace_no_write).
Defined.

Lemma one_consumer_trace :
  solo_trace (New 7 9, [])
    [EvCall CReady RReady; EvGo; EvNext 0 (AtSend (Some SlotA));
     EvNext 0 (AtAssign (Some SlotA)); EvNext 0 (AtReturn (Some SlotA));
     EvCall (CBack Background PickRecv) (RBack (Returns (Some SlotB, None)))]
    (mkDB 7 9 (Some SlotB) (Some SlotA) None [], [AtReturn (Some SlotA)]).
Proof.
  eapply solo_cons; [by apply pstep_call|done|].
  eapply solo_cons; [apply pstep_go|by intros _; constructor|].
  eapply solo_cons;
    [apply pstep_next; by eapply (nstep_thread _ _ 0 AtSwap)|done|].
  eapply solo_cons;
    [apply pstep_next; by eapply (nstep_thread _ _ 0 (AtSend (Some SlotA)))
    |done|].
  eapply solo_cons;
    [apply pstep_next; by eapply (nstep_thread _ _ 0 (AtAssign (Some SlotA)))
    |done|].
  eapply solo_cons;
    [apply pstep_call; [done|reflexivity|by unfold blocked]|done|].
  exact (solo_nil _).
Qed.

Lemma one_consumer_trace_none_assigning :
  ∀ i nx, [AtReturn (Some SlotA)] !! i ≠ Some (@AtAssign Z nx).
Proof. by intros [|[|i]] nx. Qed.

Lemma solo_alias_only_before_assign_witness :
  solo_trace (New 7 9, [])
    [EvCall CReady RReady; EvGo; EvNext 0 (AtSend (Some SlotA));
     EvNext 0 (AtAssign (Some SlotA)); EvNext 0 (AtReturn (Some SlotA));
     EvCall (CBack Background PickRecv) (RBack (Returns (Some SlotB, None)))]
    (mkDB 7 9 (Some SlotB) (Some SlotA) None [], [AtReturn (Some SlotA)]) ∧
  (∀ i nx, [AtReturn (Some SlotA)] !! i ≠ Some (@AtAssign Z nx)) ∧
  back (mkDB 7 9 (Some SlotB) (Some SlotA) None []) ≠ None ∧
  front (mkDB 7 9 (Some SlotB) (Some SlotA) None [])
    ≠ back (mkDB 7 9 (Some SlotB) (Some SlotA) None []).
Proof.
  split; [exact one_consumer_trace|].
  split; [exact one_consumer_trace_none_assigning|].
  split; [discriminate|].
  apply (solo_alias_only_before_assign 7 9 _ _ _ one_consumer_trace
           one_consumer_trace_none_assigning).
  discriminate.
Defined.

Lemma Next_unblocks_Back_witness :
  reachable (Ready (New 7 9)) ∧
  ∃ s db',
    Back Background PickDone (Next (Ready (New 7 9))).2
      = (Returns (Some s, None), db') ∧
    back db' = Some s ∧ front db' ≠ Some s.
Proof.
  assert (reachable (Ready (New 7 9))) as H
    by exact (reachable_exec CReady _ (reachable_New 7 9)).
  split; [exact H|].
  exact (Next_unblocks_Back (Ready (New 7 9)) PickDone H).
Defined.
